(** * multi_queue: bounded keyed queues drained by one worker

    A shallow embedding of [CPQueue.h] and [MultiQueueProcessor.h]
    (namespace [MultyQueueProcessor]), with the properties of the
    specification proved against it.

    Conventions of the embedding:
    - [std::queue<T> cpq] is a [list T], head of the list = front of the queue;
    - [size_t] quantities are in [N]; the code only compares them;
    - a pointer that may be [nullptr] is an [option];
    - the callback [consumer->Consume(x)] is code of the host program: a call
      is recorded as the pair (consumer, value) it is made with;
    - threads interleave between atomic steps: a public operation of the
      processor is split at its mutexes; a call on one queue ([Push],
      [Consume], [Clear], [SetConsumer]) is one step, taken where it reads
      or writes the buffer;
    - [running] and [data_ready] are read and written as if atomic. *)

From stdpp Require Import gmap sorting list.
From Stdlib Require Import NArith ZArith Lia.

Set Default Proof Using "Type".

(** ** CPQueue.h *)

(** [enum class EFullMode]. *)
Inductive EFullMode : Set :=
| SKIP_LAST   (* Skip element if the queue is full *)
| DROP_FIRST  (* Pop first element from queue and push new one in the end *)
| WAIT.       (* Wait till queue will be available to get new element *)

#[global] Instance EFullMode_eq_dec : EqDecision EFullMode.
Proof. solve_decision. Defined.

(** [const size_t MAX_CAPACITY = 1000;] *)
Definition MAX_CAPACITY : N := 1000%N.

(** An [IConsumer<T>*] that is not null: consumers are told apart by an
    identifier standing for the address of the object. *)
Definition IConsumer := nat.

Module CPQ.
Section Queue.
Context {T : Type}.

(** The data members of [CPQueue<T>]. The two mutexes and the condition
    variable carry no data; [notifier] is [true] for a non-null
    [ICPQNotifier*] (the program has one notifier, the owning processor). *)
Record CPQueue : Type := mkCPQueue {
  cpq : list T;
  maxSize : N;
  notifier : bool;
  full_mode : EFullMode;
  skip_if_no_consumer : bool;
  consumer : option IConsumer
}.

(** The constructor: an empty buffer and no consumer. *)
Definition construct (max_size : N) (fm : EFullMode) (skip_no_cons : bool)
    (notif : bool) : CPQueue :=
  {| cpq := []; maxSize := max_size; notifier := notif; full_mode := fm;
     skip_if_no_consumer := skip_no_cons; consumer := None |}.

Definition set_cpq (q : CPQueue) (l : list T) : CPQueue :=
  {| cpq := l; maxSize := maxSize q; notifier := notifier q;
     full_mode := full_mode q; skip_if_no_consumer := skip_if_no_consumer q;
     consumer := consumer q |}.

(** [size()]. *)
Definition size (q : CPQueue) : N := N.of_nat (length (cpq q)).

(** [SetConsumer(cons)]. *)
Definition SetConsumer (q : CPQueue) (cons : option IConsumer) : CPQueue :=
  {| cpq := cpq q; maxSize := maxSize q; notifier := notifier q;
     full_mode := full_mode q; skip_if_no_consumer := skip_if_no_consumer q;
     consumer := cons |}.

(** The ways a call of [Push] can go. *)
Inductive PushResult : Type :=
| PushNoConsumer                          (* [return] under [skip_if_no_consumer] *)
| PushSkipped                             (* [return] in the SKIP_LAST branch *)
| PushStored (q' : CPQueue) (notify : bool)
                                          (* reached [cpq.push(value)];
                                             [Notify()] was called iff [notify] *)
| PushWaiting                             (* suspended in [cv.wait] *)
| PushUndefined.                          (* [cpq.pop()] on an empty container *)

(** [Push(value)]. In the WAIT branch the predicate [cpq.size() < maxSize]
    is false on entry (the buffer is full), so the caller is suspended;
    [Push_resume] is what it does when it is woken. *)
Definition Push (q : CPQueue) (value : T) : PushResult :=
  if skip_if_no_consumer q && bool_decide (consumer q = None) then PushNoConsumer
  else
    let is_full := (size q =? maxSize q)%N in
    if is_full then
      match full_mode q with
      | SKIP_LAST => PushSkipped
      | DROP_FIRST =>
          match cpq q with
          | [] => PushUndefined
          | _ :: rest => PushStored (set_cpq q (rest ++ [value])) (notifier q)
          end
      | WAIT => PushWaiting
      end
    else PushStored (set_cpq q (cpq q ++ [value])) (notifier q).

(** A producer suspended in the WAIT branch re-evaluates the predicate of
    [cv.wait] under the lock each time it wakes, and goes on to
    [cpq.push(value)] when it holds. *)
Definition Push_resume (q : CPQueue) (value : T) : PushResult :=
  if (size q <? maxSize q)%N
  then PushStored (set_cpq q (cpq q ++ [value])) (notifier q)
  else PushWaiting.

(** What [Consume] hands back: the returned flag, the queue afterwards, and
    the callback invocation made on the way (if any). *)
Record ConsumeResult : Type := mkConsumeResult {
  ret : bool;
  after : CPQueue;
  callback : option (IConsumer * T)
}.

(** [Consume()]. *)
Definition Consume (q : CPQueue) : ConsumeResult :=
  match consumer q with
  | None => mkConsumeResult false q None
  | Some c =>
      match cpq q with
      | [] => mkConsumeResult false q None
      | front :: rest => mkConsumeResult true (set_cpq q rest) (Some (c, front))
      end
  end.

(** [Clear()]. *)
Definition Clear (q : CPQueue) : CPQueue := set_cpq q [].

(** *** Sequences of operations on one queue *)

(** The buffer as the other threads see it once a call of [Push] has gone as
    far as it can; there is none after undefined behaviour. *)
Definition push_state (q : CPQueue) (r : PushResult) : option CPQueue :=
  match r with
  | PushStored q' _ => Some q'
  | PushNoConsumer | PushSkipped | PushWaiting => Some q
  | PushUndefined => None
  end.

Inductive QOp : Type :=
| OpPush (value : T)
| OpResume (value : T)      (* a producer suspended in [Push] wakes up *)
| OpConsume
| OpClear
| OpSetConsumer (cons : option IConsumer).

(** One operation: the queue afterwards and the callbacks it made. *)
Definition q_step (q : CPQueue) (op : QOp)
    : option (CPQueue * list (IConsumer * T)) :=
  match op with
  | OpPush v => q' ← push_state q (Push q v); Some (q', [])
  | OpResume v => q' ← push_state q (Push_resume q v); Some (q', [])
  | OpConsume =>
      let r := Consume q in
      Some (after r, match callback r with Some d => [d] | None => [] end)
  | OpClear => Some (Clear q, [])
  | OpSetConsumer c => Some (SetConsumer q c, [])
  end.

(** A sequence of operations, with the callbacks in the order made. *)
Fixpoint q_run (q : CPQueue) (ops : list QOp)
    : option (CPQueue * list (IConsumer * T)) :=
  match ops with
  | [] => Some (q, [])
  | op :: ops' =>
      '(q1, d1) ← q_step q op;
      '(q2, d2) ← q_run q1 ops';
      Some (q2, d1 ++ d2)
  end.

(** Pushing a list of values one after the other, nothing draining. *)
Fixpoint push_all (q : CPQueue) (vs : list T) : option CPQueue :=
  match vs with
  | [] => Some q
  | v :: vs' => q' ← push_state q (Push q v); push_all q' vs'
  end.

(** The queue takes pushes: a consumer is attached, or pushes are kept
    without one. *)
Definition listening (q : CPQueue) : Prop :=
  is_Some (consumer q) ∨ skip_if_no_consumer q = false.

(** [len(items) <= capacity]. *)
Definition within_capacity (q : CPQueue) : Prop := (size q <= maxSize q)%N.

(** The values offered by the pushes of a sequence, in order. *)
Definition pushed (ops : list QOp) : list T :=
  omap (λ op, match op with
              | OpPush v | OpResume v => Some v
              | _ => None
              end) ops.

(** No value is lost along [ops]: every push appends to the buffer as it
    stands (no drop for want of a consumer, no skip, no eviction, no
    suspension), and the buffer is never cleared. *)
Fixpoint no_loss (q : CPQueue) (ops : list QOp) : bool :=
  match ops with
  | [] => true
  | op :: ops' =>
      match op with
      | OpPush v =>
          match Push q v with
          | PushStored q' _ =>
              bool_decide (length (cpq q') = S (length (cpq q))) && no_loss q' ops'
          | _ => false
          end
      | OpResume v =>
          match Push_resume q v with
          | PushStored q' _ => no_loss q' ops'
          | _ => false
          end
      | OpConsume => no_loss (after (Consume q)) ops'
      | OpClear => false
      | OpSetConsumer c => no_loss (SetConsumer q c) ops'
      end
  end.

End Queue.
Arguments CPQueue T : clear implicits.
Arguments PushResult T : clear implicits.
Arguments ConsumeResult T : clear implicits.
Arguments QOp T : clear implicits.
End CPQ.

(** ** MultiQueueProcessor.h *)

Module MQP.
Section Processor.
Context {ValueType : Type}.

(** Keys are the integers of the test program's
    [CMultiQueueProcessor<int, int>]; the code only compares them. *)
Abbreviation KeyType := Z (only parsing).

(** The data members of [CMultiQueueProcessor]: [std::set<KeyType> keys],
    [std::unordered_map<KeyType, QPtr> queues], and the two flags. The
    thread handle [th] is the worker's program counter below. *)
Record CMultiQueueProcessor : Type := mkProcessor {
  keys : gset Z;
  queues : gmap Z (CPQ.CPQueue ValueType);
  running : bool;
  data_ready : bool
}.

Definition set_keys (p : CMultiQueueProcessor) (ks : gset Z) :=
  {| keys := ks; queues := queues p; running := running p;
     data_ready := data_ready p |}.
Definition set_queues (p : CMultiQueueProcessor)
    (qs : gmap Z (CPQ.CPQueue ValueType)) :=
  {| keys := keys p; queues := qs; running := running p;
     data_ready := data_ready p |}.
Definition set_running (p : CMultiQueueProcessor) (b : bool) :=
  {| keys := keys p; queues := queues p; running := b;
     data_ready := data_ready p |}.
Definition set_data_ready (p : CMultiQueueProcessor) (b : bool) :=
  {| keys := keys p; queues := queues p; running := running p;
     data_ready := b |}.

(** The members as initialised in the class, before the constructor body. *)
Definition members_init : CMultiQueueProcessor :=
  {| keys := ∅; queues := ∅; running := false; data_ready := false |}.

(** [GetQueue(id)]: the raw pointer, [nullptr] when the key has no queue. *)
Definition GetQueue (p : CMultiQueueProcessor) (id : KeyType)
    : option (CPQ.CPQueue ValueType) :=
  queues p !! id.

(** [q->SetConsumer(cons)] on the queue of [id], if it has one: the first
    half of [Subscribe] and of [Unsubscribe]. *)
Definition attach (p : CMultiQueueProcessor) (id : KeyType)
    (cons : option IConsumer) : CMultiQueueProcessor :=
  match GetQueue p id with
  | Some q => set_queues p (<[id := CPQ.SetConsumer q cons]> (queues p))
  | None => p
  end.

(** [Subscribe(id, consumer)]. *)
Definition Subscribe (p : CMultiQueueProcessor) (id : KeyType)
    (cons : option IConsumer) : CMultiQueueProcessor :=
  let p1 := attach p id cons in
  set_keys p1 ({[id]} ∪ keys p1).

(** [Unsubscribe(id)]. *)
Definition Unsubscribe (p : CMultiQueueProcessor) (id : KeyType)
    : CMultiQueueProcessor :=
  let p1 := attach p id None in
  set_keys p1 (keys p1 ∖ {[id]}).

(** [CreateQueue(id, fm, skip_no_cons)]: the returned flag and the processor
    afterwards. [emplace] inserts, and reports [true], exactly when the key
    is not in the map, which [find] has just established. *)
Definition CreateQueue (p : CMultiQueueProcessor) (id : KeyType)
    (fm : EFullMode) (skip_no_cons : bool) : bool * CMultiQueueProcessor :=
  match queues p !! id with
  | None =>
      (true,
       set_queues p
         (<[id := CPQ.construct MAX_CAPACITY fm skip_no_cons true]> (queues p)))
  | Some _ => (false, p)
  end.

(** [queues.erase(id)], the second half of [DeleteQueue]. *)
Definition erase_queue (p : CMultiQueueProcessor) (id : KeyType) :=
  set_queues p (delete id (queues p)).

(** [DeleteQueue(id)]. *)
Definition DeleteQueue (p : CMultiQueueProcessor) (id : KeyType)
    : CMultiQueueProcessor :=
  erase_queue (Unsubscribe p id) id.

(** [Notify()]. *)
Definition Notify (p : CMultiQueueProcessor) : CMultiQueueProcessor :=
  set_data_ready p true.

(** How a call of [Enqueue] can go. *)
Inductive EnqueueResult : Type :=
| EnqReturned (p' : CMultiQueueProcessor)
| EnqWaiting                  (* the producer is suspended inside [Push] *)
| EnqUndefined.

(** What a [PushResult] on the queue of [id] does to the processor, up to
    but not including the call of [Notify]. *)
Definition store (p : CMultiQueueProcessor) (id : KeyType)
    (r : CPQ.PushResult ValueType) : EnqueueResult * bool :=
  match r with
  | CPQ.PushStored q' notify =>
      (EnqReturned (set_queues p (<[id := q']> (queues p))), notify)
  | CPQ.PushNoConsumer | CPQ.PushSkipped => (EnqReturned p, false)
  | CPQ.PushWaiting => (EnqWaiting, false)
  | CPQ.PushUndefined => (EnqUndefined, false)
  end.

(** [Enqueue(id, value)]. *)
Definition Enqueue (p : CMultiQueueProcessor) (id : KeyType)
    (value : ValueType) : EnqueueResult :=
  match GetQueue p id with
  | Some q =>
      match store p id (CPQ.Push q value) with
      | (EnqReturned p', true) => EnqReturned (Notify p')
      | (r, _) => r
      end
  | None => EnqReturned p
  end.

(** [StopProcessing()]; [cv.notify_all()] changes no data. *)
Definition StopProcessing (p : CMultiQueueProcessor) : CMultiQueueProcessor :=
  set_running p false.

(** *** The worker thread and its environment *)

(** [for (KeyType key : keys)]: a [std::set] is traversed in ascending order. *)
Definition sweep_order (ks : gset Z) : list Z :=
  merge_sort Z.le (elements ks).

(** Where the thread running [Process()] stands. The sweep states carry the
    keys the [for] loop has still to visit; [keys_mtx] is held in them. *)
Inductive WorkerPC : Type :=
| PcLoop                     (* about to test [while (running)] *)
| PcWaitKeys                 (* in [cv.wait]: [!keys.empty() || !running] *)
| PcLockKeys                 (* about to take [keys_mtx] for the sweep *)
| PcVisit (rest : list Z)    (* at the head of the [for] body *)
| PcCheck (rest : list Z)    (* at [if (!data_ready)] *)
| PcIdle (rest : list Z)     (* in [cv.wait]: [data_ready || !running] *)
| PcDone                     (* [Process] has returned *)
| PcAssert                   (* [assert(q)] failed *)
| PcTerminated.              (* [std::terminate] was called, or a freed
                                queue was used *)

#[global] Instance WorkerPC_eq_dec : EqDecision WorkerPC.
Proof. solve_decision. Defined.

(** One call [q->Consume()] made by the worker: the key visited, the flag
    returned and the callback invocation. *)
Record ConsumeCall : Type := mkCall {
  call_key : Z;
  call_ret : bool;
  call_callback : option (IConsumer * ValueType)
}.

Record System : Type := mkSystem {
  proc : CMultiQueueProcessor;
  pc : WorkerPC;
  calls : list ConsumeCall
}.

Definition set_pc (s : System) (c : WorkerPC) : System :=
  {| proc := proc s; pc := c; calls := calls s |}.
Definition set_proc (s : System) (p : CMultiQueueProcessor) : System :=
  {| proc := p; pc := pc s; calls := calls s |}.

(** The constructor: [StartProcessing()] finds [running] false, sets it and
    starts the thread. *)
Definition constructed : System :=
  {| proc := set_running members_init true; pc := PcLoop; calls := [] |}.

(** The inner scan of [Process]: [Some true] when every subscribed queue is
    empty, [Some false] at the first one that is not, [None] when
    [assert(q)] fails. *)
Fixpoint all_queues_empty (qs : gmap Z (CPQ.CPQueue ValueType))
    (ks : list Z) : option bool :=
  match ks with
  | [] => Some true
  | key :: ks' =>
      match qs !! key with
      | None => None
      | Some q => if (0 <? CPQ.size q)%N then Some false
                  else all_queues_empty qs ks'
      end
  end.

(** One step of the thread running [Process()]. A [cv.wait] whose predicate
    is false leaves the state as it is. The visit of one key (reset of
    [data_ready], [GetQueue], [assert], [Consume]) is taken as one step.

    A wait is modelled by its predicate alone: the worker may go on whenever
    the predicate holds. In the program the flags are written and
    [notify_all] is called without the mutex the worker waits on (a local of
    [Process]), so a worker that has found the predicate false can block
    after the notification and stay blocked. The runs of the program are
    among the runs of these steps, which is what statements of the form
    "the worker never ..." need; that the worker does go on is not a
    property of the program and is stated nowhere. *)
Definition worker_step (s : System) : System :=
  let p := proc s in
  match pc s with
  | PcLoop => if running p then set_pc s PcWaitKeys else set_pc s PcDone
  | PcWaitKeys =>
      if negb (bool_decide (keys p = ∅)) || negb (running p)
      then set_pc s PcLockKeys
      else s
  | PcLockKeys => set_pc s (PcVisit (sweep_order (keys p)))
  | PcVisit [] => set_pc s PcLoop
  | PcVisit (key :: rest) =>
      let p1 := set_data_ready p false in
      match GetQueue p1 key with
      | None => {| proc := p1; pc := PcAssert; calls := calls s |}
      | Some q =>
          let r := CPQ.Consume q in
          {| proc := set_queues p1 (<[key := CPQ.after r]> (queues p1));
             pc := PcCheck rest;
             calls := calls s ++ [mkCall key (CPQ.ret r) (CPQ.callback r)] |}
      end
  | PcCheck rest =>
      if data_ready p then set_pc s (PcVisit rest)
      else
        match all_queues_empty (queues p) (sweep_order (keys p)) with
        | None => set_pc s PcAssert
        | Some true => set_pc s (PcIdle rest)
        | Some false => set_pc s (PcVisit rest)
        end
  | PcIdle rest =>
      if data_ready p || negb (running p) then set_pc s (PcVisit rest) else s
  | PcDone | PcAssert | PcTerminated => s
  end.

(** [keys_mtx] is held by the worker from the start of a sweep to its end. *)
Definition holds_keys_mtx (c : WorkerPC) : bool :=
  match c with
  | PcVisit _ | PcCheck _ | PcIdle _ => true
  | _ => false
  end.

(** The program is over after a failed assertion or [std::terminate]. *)
Definition crashed (c : WorkerPC) : bool :=
  match c with
  | PcAssert | PcTerminated => true
  | _ => false
  end.

(** The atomic steps of the system: one critical section of a public
    operation, run by some thread of the host program, or a step of the
    worker. *)
Inductive Action : Type :=
| ACreateQueue (id : Z) (fm : EFullMode) (skip_no_cons : bool)
| AAttach (id : Z) (cons : option IConsumer)
| AKeysInsert (id : Z)
| AKeysErase (id : Z)
| AQueuesErase (id : Z)
| APush (id : Z) (value : ValueType)
| AResume (id : Z) (value : ValueType)
| ANotify
| AStopProcessing
| AStartProcessing
| AWorker.

Definition after_store (s : System) (r : EnqueueResult * bool) : System :=
  match r.1 with
  | EnqReturned p' => set_proc s p'
  | EnqWaiting => s
  | EnqUndefined => set_pc s PcTerminated
  end.

(** A critical section that needs [keys_mtx] while the worker holds it does
    not run (its thread stays blocked); nothing runs once the program is
    over. A producer that wakes in [Push] uses the raw pointer it fetched
    before: if the queue has been erased meanwhile the program is over too.
    [StartProcessing] with [running] false move-assigns a new thread to
    [th], which the constructor left joinable: that calls [std::terminate].

    Two things the program can do have no step here. [APush] and [AAttach]
    take [GetQueue] and the call through the pointer it returns as one
    step; [Enqueue], [Subscribe] and [Unsubscribe] release [queues_mtx] in
    between, and a call through a pointer to a queue erased meanwhile is
    undefined. And the thread that [StartProcessing] starts before
    [std::terminate] is called runs no step. Statements about all runs
    that depend on either carry the hypothesis that no queue is erased
    ([erases]) or that [StartProcessing] is not called again ([restarts]). *)
Definition sys_step (s : System) (a : Action) : System :=
  if crashed (pc s) then s else
  let p := proc s in
  match a with
  | ACreateQueue id fm skip => set_proc s (CreateQueue p id fm skip).2
  | AAttach id c => set_proc s (attach p id c)
  | AKeysInsert id =>
      if holds_keys_mtx (pc s) then s
      else set_proc s (set_keys p ({[id]} ∪ keys p))
  | AKeysErase id =>
      if holds_keys_mtx (pc s) then s
      else set_proc s (set_keys p (keys p ∖ {[id]}))
  | AQueuesErase id => set_proc s (erase_queue p id)
  | APush id value =>
      match GetQueue p id with
      | Some q => after_store s (store p id (CPQ.Push q value))
      | None => s
      end
  | AResume id value =>
      match GetQueue p id with
      | Some q => after_store s (store p id (CPQ.Push_resume q value))
      | None => set_pc s PcTerminated
      end
  | ANotify => set_proc s (Notify p)
  | AStopProcessing => set_proc s (StopProcessing p)
  | AStartProcessing =>
      if running p then s
      else {| proc := set_running p true; pc := PcTerminated; calls := calls s |}
  | AWorker => worker_step s
  end.

Definition sys_run (s : System) (acts : list Action) : System :=
  fold_left sys_step acts s.

(** The critical sections of each public operation, in program order. *)
Definition do_Subscribe (id : Z) (cons : option IConsumer) : list Action :=
  [AAttach id cons; AKeysInsert id].
Definition do_Unsubscribe (id : Z) : list Action :=
  [AAttach id None; AKeysErase id].
Definition do_DeleteQueue (id : Z) : list Action :=
  do_Unsubscribe id ++ [AQueuesErase id].
Definition do_Enqueue (p : CMultiQueueProcessor) (id : Z) (value : ValueType)
    : list Action :=
  match GetQueue p id with
  | Some q =>
      match CPQ.Push q value with
      | CPQ.PushStored _ true => [APush id value; ANotify]
      | _ => [APush id value]
      end
  | None => [APush id value]
  end.

(** The keys of the calls of [Consume] in a log. *)
Definition consumed_keys (l : list ConsumeCall) : list Z := map call_key l.

(** The keys the sweep in progress has still to visit. *)
Definition pending (c : WorkerPC) : list Z :=
  match c with
  | PcVisit rest | PcCheck rest | PcIdle rest => rest
  | _ => []
  end.

(** What the worker may still pass to [Consume] from a state in which
    [running] is false: nothing outside a sweep, an initial segment of the
    keys left in the sweep in progress, and the keys of one sweep (each at
    most once) when it is about to start one. *)
Definition stop_bound (c : WorkerPC) (ks : list Z) : Prop :=
  match c with
  | PcWaitKeys | PcLockKeys => NoDup ks
  | PcVisit rest | PcCheck rest | PcIdle rest => ks `prefix_of` rest
  | PcLoop | PcDone | PcAssert | PcTerminated => ks = []
  end.

(** [running] is false, or the program is over. *)
Definition stopped (s : System) : Prop :=
  running (proc s) = false ∨ crashed (pc s) = true.

(** A call of [StartProcessing]. *)
Definition restarts (a : Action) : bool :=
  match a with
  | AStartProcessing => true
  | _ => false
  end.

(** [queues.erase(id)], the step of [DeleteQueue] that destroys a queue. *)
Definition erases (a : Action) : bool :=
  match a with
  | AQueuesErase _ => true
  | _ => false
  end.

(** The keys [ks] the worker passes to [Consume] along [acts], from a state
    [s] in which [running] is false, belong to one sweep and come in its
    order: an initial segment of the keys left in the sweep in progress;
    or, when the worker is between two sweeps, an initial segment of the
    sweep it starts during [acts], which is over the keys subscribed at the
    moment it takes [keys_mtx]; and nothing once it has tested [running]. *)
Definition stop_sweep (s : System) (acts : list Action) (ks : list Z) : Prop :=
  match pc s with
  | PcVisit rest | PcCheck rest | PcIdle rest => ks `prefix_of` rest
  | PcWaitKeys | PcLockKeys =>
      ks = [] ∨
      ∃ acts1 acts2, acts = acts1 ++ AWorker :: acts2 ∧
        pc (sys_run s acts1) = PcLockKeys ∧
        ks `prefix_of` sweep_order (keys (proc (sys_run s acts1)))
  | PcLoop | PcDone | PcAssert | PcTerminated => ks = []
  end.

(** Every state along [acts], from [s] to the last one, is inside a sweep
    (the worker holds [keys_mtx]). *)
Fixpoint sweep_only (s : System) (acts : list Action) : bool :=
  holds_keys_mtx (pc s) &&
  match acts with
  | [] => true
  | a :: acts' => sweep_only (sys_step s a) acts'
  end.

(** A discipline of the host program: a key is put in [keys] only while it
    has a queue, and a queue is erased only while its key is not in [keys]. *)
Definition respects_keys (s : System) (a : Action) : bool :=
  match a with
  | AKeysInsert id => bool_decide (is_Some (queues (proc s) !! id))
  | AQueuesErase id => bool_decide (id ∉ keys (proc s))
  | _ => true
  end.

Fixpoint disciplined (s : System) (acts : list Action) : bool :=
  match acts with
  | [] => true
  | a :: acts' => respects_keys s a && disciplined (sys_step s a) acts'
  end.

(** Some producer offered [value] to the queue of [id] along [acts]. *)
Definition offered (acts : list Action) (id : Z) (value : ValueType) : Prop :=
  APush id value ∈ acts ∨ AResume id value ∈ acts.

(** Every subscribed key has a queue. *)
Definition keys_have_queues (p : CMultiQueueProcessor) : Prop :=
  ∀ key, key ∈ keys p → is_Some (queues p !! key).

(** Every queue of the processor is as [CreateQueue] builds them, and within
    its capacity. *)
Definition queues_bounded (p : CMultiQueueProcessor) : Prop :=
  ∀ key q, queues p !! key = Some q →
    CPQ.maxSize q = MAX_CAPACITY ∧ CPQ.notifier q = true ∧
    CPQ.within_capacity q.

(** The step that puts a key in [keys]: the second half of [Subscribe]. *)
Definition subscribes (a : Action) : bool :=
  match a with
  | AKeysInsert _ => true
  | _ => false
  end.

(** [q'] is [q] with at most its head element removed. *)
Definition popped (q q' : CPQ.CPQueue ValueType) : Prop :=
  q' = q ∨ ∃ front, CPQ.cpq q = front :: CPQ.cpq q' ∧
                    q' = CPQ.set_cpq q (CPQ.cpq q').

(** The state in which the worker's assertion cannot fail at its next
    steps: every subscribed key has a queue, the keys left in the sweep are
    subscribed, and no assertion has failed. *)
Definition keys_safe (s : System) : Prop :=
  keys_have_queues (proc s) ∧
  (∀ key, key ∈ pending (pc s) → key ∈ keys (proc s)) ∧
  pc s ≠ PcAssert.

(** What a queue of [key] holds was offered to [key] along [H], and its
    consumer was attached to [key] along [H]. *)
Definition vouched (H : list Action) (key : Z) (q : CPQ.CPQueue ValueType)
    : Prop :=
  (∀ v, v ∈ CPQ.cpq q → offered H key v) ∧
  (∀ c, CPQ.consumer q = Some c → AAttach key (Some c) ∈ H).

(** The same for a call of [Consume] made by the worker, whose key was
    moreover put in [keys] along [H]. *)
Definition call_vouched (H : list Action) (call : ConsumeCall) : Prop :=
  AKeysInsert (call_key call) ∈ H ∧
  ∀ c v, call_callback call = Some (c, v) →
    offered H (call_key call) v ∧ AAttach (call_key call) (Some c) ∈ H.

Definition traced (H : list Action) (s : System) : Prop :=
  (∀ key q, queues (proc s) !! key = Some q → vouched H key q) ∧
  (∀ key, key ∈ keys (proc s) ∨ key ∈ pending (pc s) → AKeysInsert key ∈ H) ∧
  (∀ call, call ∈ calls s → call_vouched H call).

End Processor.
Arguments CMultiQueueProcessor ValueType : clear implicits.
Arguments System ValueType : clear implicits.
Arguments Action ValueType : clear implicits.
Arguments ConsumeCall ValueType : clear implicits.
Arguments EnqueueResult ValueType : clear implicits.
End MQP.

(** ** MultiQueueTest.cpp *)

Module Harness.

(** [INT_MAX] of the 32-bit [int] the test program counts in. *)
Definition INT_MAX : Z := 2147483647.

(** [struct SGenerator<int, int>]. The arithmetic on [repetition] is that of
    [int]; it is exact in [Z] as long as nothing overflows. *)
Record SGenerator : Type := mkGenerator {
  key : Z;
  value : Z;
  repetition : Z;
  delay_msec : Z
}.

Definition spend (g : SGenerator) : SGenerator :=
  {| key := key g; value := value g; repetition := (repetition g - 1)%Z;
     delay_msec := delay_msec g |}.

(** The first loop of [Produce]: [total_repetition]. *)
Definition total_repetition (generators : list SGenerator) : Z :=
  foldr (λ g acc, (repetition g + acc)%Z) 0%Z generators.

(** How a call of [Produce] ends: it returns after its calls of [Enqueue],
    or it stays inside the last of them. *)
Inductive Produced : Type :=
| Returned (calls : list (Z * Z))
| Suspended (calls : list (Z * Z)).

Definition more (out : list (Z * Z)) (r : Produced) : Produced :=
  match r with
  | Returned rest => Returned (out ++ rest)
  | Suspended rest => Suspended (out ++ rest)
  end.

(** Whether a call [processor.Enqueue(key, value)] returns is decided by
    the processor and the other threads ([Push] under WAIT suspends the
    caller while the queue is full), not by [Produce]: [returns n] says
    whether the call number [n] made by [Produce], counted from 0, returns.

    One execution of the inner [for] of [Produce], [made] calls having been
    made before: the calls [Enqueue(key, value)] made, then the records
    afterwards and what is left of [total_repetition], or [None] when the
    last call has not returned. The loop does not test [total_repetition]. *)
Fixpoint pass (returns : nat → bool) (made : nat)
    (generators : list SGenerator) (total : Z)
    : list (Z * Z) * option (list SGenerator * Z) :=
  match generators with
  | [] => ([], Some ([], total))
  | g :: gs =>
      if (0 <? repetition g)%Z then
        if returns made then
          let '(out, r) := pass returns (S made) gs (total - 1)%Z in
          ((key g, value g) :: out,
           (λ '(gs', t'), (spend g :: gs', t')) <$> r)
        else ([(key g, value g)], None)
      else
        let '(out, r) := pass returns made gs total in
        (out, (λ '(gs', t'), (g :: gs', t')) <$> r)
  end.

(** [while (total_repetition > 0)], for at most [fuel] rounds; [None] when
    the rounds run out. *)
Fixpoint rounds (returns : nat → bool) (fuel : nat) (made : nat)
    (generators : list SGenerator) (total : Z) : option Produced :=
  if (0 <? total)%Z then
    match fuel with
    | O => None
    | S fuel' =>
        match pass returns made generators total with
        | (out, Some (gs', t')) =>
            more out <$> rounds returns fuel' (made + length out) gs' t'
        | (out, None) => Some (Suspended out)
        end
    end
  else Some (Returned []).

(** [Produce(processor, generators)], as the sequence of its calls of
    [Enqueue]; the pauses between them are not modelled. *)
Definition Produce (returns : nat → bool) (generators : list SGenerator)
    : option Produced :=
  rounds returns (Z.to_nat (total_repetition generators)) 0 generators
    (total_repetition generators).

(** Every call returns. *)
Definition always : nat → bool := λ _, true.

(** How often the generators ask for the pair [(k, v)]. *)
Definition demand (generators : list SGenerator) (k v : Z) : Z :=
  foldr (λ g acc,
           if bool_decide (key g = k ∧ value g = v)
           then (repetition g + acc)%Z else acc) 0%Z generators.

(** [CConsumer::Consume(value)] on [total_map]: [None] when
    [it->second + 1] overflows [int]. *)
Definition CConsumer_Consume (total_map : gmap Z Z) (value : Z)
    : option (gmap Z Z) :=
  match total_map !! value with
  | None => Some (<[value := 1%Z]> total_map)
  | Some n =>
      if (n <? INT_MAX)%Z
      then Some (<[value := (n + 1)%Z]> (delete value total_map))
      else None
  end.

(** The consumer fed a sequence of values. *)
Fixpoint consume_all (total_map : gmap Z Z) (values : list Z)
    : option (gmap Z Z) :=
  match values with
  | [] => Some total_map
  | v :: vs => m ← CConsumer_Consume total_map v; consume_all m vs
  end.

(** The number of occurrences of [v] in [values]. *)
Definition occurrences (v : Z) (values : list Z) : Z :=
  Z.of_nat (length (filter (λ x, x = v) values)).

(** What the consumer holds for a value it is given [n] more times, when it
    held [held]. *)
Definition tally (held : option Z) (n : Z) : option Z :=
  match held with
  | Some k => Some (k + n)%Z
  | None => if decide (n = 0%Z) then None else Some n
  end.

(** How often [Enqueue(k, v)] occurs among [calls]. *)
Definition asked (k v : Z) (calls : list (Z * Z)) : Z :=
  Z.of_nat (length (filter (λ c, c = (k, v)) calls)).

Definition nonneg (generators : list SGenerator) : Prop :=
  Forall (λ g, (0 ≤ repetition g)%Z) generators.

End Harness.

(** ** Properties of one queue *)

Module QueueFacts.
Import CPQ.
Section Facts.
Context {T : Type}.
Implicit Types (q : CPQueue T) (v : T) (vs : list T) (ops : list (QOp T)).

Lemma listening_gate q :
  listening q → skip_if_no_consumer q && bool_decide (consumer q = None) = false.
Proof.
  intros [[c Hc] | Hs].
  - rewrite Hc. rewrite bool_decide_eq_false_2 by discriminate.
    apply andb_false_r.
  - by rewrite Hs.
Qed.

Lemma listening_set_cpq q l : listening q → listening (set_cpq q l).
Proof. by intros H. Qed.

Lemma size_set_cpq q l : size (set_cpq q l) = N.of_nat (length l).
Proof. reflexivity. Qed.

(** *** Clear *)

(** C10. [Clear] empties the buffer and touches nothing else: afterwards the
    item count is zero, and the attached consumer, the overflow policy, the
    capacity, the no-consumer flag and the notifier are what they were. *)
Theorem Clear_keeps_configuration q :
  cpq (Clear q) = [] ∧ size (Clear q) = 0%N ∧
  consumer (Clear q) = consumer q ∧
  full_mode (Clear q) = full_mode q ∧
  maxSize (Clear q) = maxSize q ∧
  skip_if_no_consumer (Clear q) = skip_if_no_consumer q ∧
  notifier (Clear q) = notifier q.
Proof. by repeat split. Qed.

(** *** Consume *)

Lemma Consume_cases q :
  (consumer q = None ∧ Consume q = mkConsumeResult false q None) ∨
  (cpq q = [] ∧ Consume q = mkConsumeResult false q None) ∨
  (∃ c front rest, consumer q = Some c ∧ cpq q = front :: rest ∧
     Consume q = mkConsumeResult true (set_cpq q rest) (Some (c, front))).
Proof.
  unfold Consume. destruct (consumer q) as [c|] eqn:Hc; [|by left].
  destruct (cpq q) as [|front rest] eqn:Hq; [by right; left|].
  right; right. by exists c, front, rest.
Qed.

(** C6. [Consume] returns false exactly when no consumer is attached or the
    buffer is empty, and then leaves the queue as it was and calls nothing;
    otherwise it removes the head element, calls the attached consumer with
    that element before it returns, and returns true. *)
Theorem Consume_false_iff_idle q :
  (ret (Consume q) = false ↔ consumer q = None ∨ cpq q = []) ∧
  (ret (Consume q) = false →
     after (Consume q) = q ∧ callback (Consume q) = None) ∧
  (ret (Consume q) = true →
     ∃ c front rest, consumer q = Some c ∧ cpq q = front :: rest ∧
       after (Consume q) = set_cpq q rest ∧
       callback (Consume q) = Some (c, front)).
Proof.
  destruct (Consume_cases q) as [[Hc ->] | [[Hq ->] | (c & front & rest & Hc & Hq & ->)]];
    cbn.
  - split_and!; [by split; [left|] | done | discriminate].
  - split_and!; [by split; [right|] | done | discriminate].
  - split_and!.
    + split; [discriminate|]. intros [H | H]; congruence.
    + discriminate.
    + intros _. by exists c, front, rest.
Qed.

(** *** Push without a consumer *)

Lemma Push_unattended q v :
  skip_if_no_consumer q = true → consumer q = None → Push q v = PushNoConsumer.
Proof. intros Hs Hc. unfold Push. by rewrite Hs, Hc. Qed.

Lemma push_all_unattended q vs :
  skip_if_no_consumer q = true → consumer q = None → push_all q vs = Some q.
Proof.
  intros Hs Hc. induction vs as [|v vs IH]; [done|].
  cbn. by rewrite Push_unattended.
Qed.

(** C7. With [skip_if_no_consumer] set and no consumer attached, [Push]
    discards the value and changes nothing; so after any number of such
    pushes and then [SetConsumer], the buffer is what it was before them,
    which for a queue that started empty is zero items. *)
Theorem Push_dropped_without_consumer q vs cons :
  skip_if_no_consumer q = true → consumer q = None →
  (∀ v, Push q v = PushNoConsumer ∧ push_state q (Push q v) = Some q) ∧
  push_all q vs = Some q ∧
  cpq (SetConsumer q cons) = cpq q ∧
  (cpq q = [] → size (SetConsumer q cons) = 0%N).
Proof.
  intros Hs Hc. split_and!.
  - intros v. by rewrite Push_unattended.
  - by apply push_all_unattended.
  - done.
  - unfold size. cbn. by intros ->.
Qed.

(** *** Push at and below capacity *)

Lemma Push_room q v :
  listening q → size q ≠ maxSize q →
  Push q v = PushStored (set_cpq q (cpq q ++ [v])) (notifier q).
Proof.
  intros Hl Hne. unfold Push. rewrite listening_gate by done.
  cbn. by rewrite (proj2 (N.eqb_neq _ _) Hne).
Qed.

Lemma Push_full_skip q v :
  listening q → full_mode q = SKIP_LAST → size q = maxSize q →
  Push q v = PushSkipped.
Proof.
  intros Hl Hm Hf. unfold Push. rewrite listening_gate by done.
  cbn. by rewrite (proj2 (N.eqb_eq _ _) Hf), Hm.
Qed.

Lemma Push_full_drop q v front rest :
  listening q → full_mode q = DROP_FIRST → size q = maxSize q →
  cpq q = front :: rest →
  Push q v = PushStored (set_cpq q (rest ++ [v])) (notifier q).
Proof.
  intros Hl Hm Hf Hq. unfold Push. rewrite listening_gate by done.
  cbn. by rewrite (proj2 (N.eqb_eq _ _) Hf), Hm, Hq.
Qed.

Lemma set_cpq_set_cpq q l l' : set_cpq (set_cpq q l) l' = set_cpq q l'.
Proof. reflexivity. Qed.

Lemma set_cpq_id q : set_cpq q (cpq q) = q.
Proof. by destruct q. Qed.

Lemma push_all_skip vs : ∀ q,
  listening q → full_mode q = SKIP_LAST → within_capacity q →
  push_all q vs =
    Some (set_cpq q (cpq q ++ take (N.to_nat (maxSize q) - length (cpq q)) vs)).
Proof.
  induction vs as [|v vs IH]; intros q Hl Hm Hc.
  - cbn. by rewrite take_nil, app_nil_r, set_cpq_id.
  - cbn [push_all]. unfold within_capacity, size in Hc.
    destruct (decide (size q = maxSize q)) as [Hf | Hnf].
    + rewrite Push_full_skip by done. cbn. rewrite IH by done.
      unfold size in Hf.
      replace (N.to_nat (maxSize q) - length (cpq q)) with 0 by lia.
      by rewrite !take_0.
    + rewrite Push_room by done. cbn.
      unfold size in Hnf.
      rewrite IH; [| done | done |].
      * rewrite set_cpq_set_cpq. cbn. f_equal. f_equal.
        rewrite length_app. cbn.
        replace (N.to_nat (maxSize q) - length (cpq q))
          with (S (N.to_nat (maxSize q) - (length (cpq q) + 1))) by lia.
        cbn. by rewrite <- app_assoc.
      * unfold within_capacity, size. cbn. rewrite length_app. cbn. lia.
Qed.

(** C4. Under SKIP_LAST, with a consumer attached or [skip_if_no_consumer]
    off, a [Push] into a buffer at capacity discards the value and leaves the
    queue unchanged; so pushing into an empty queue, nothing draining, keeps
    the first [maxSize] values pushed, in order, in particular when
    [maxSize + 1] values are pushed. *)
Theorem SkipNewest_keeps_first q vs :
  full_mode q = SKIP_LAST → listening q →
  (∀ v, size q = maxSize q →
     Push q v = PushSkipped ∧ push_state q (Push q v) = Some q) ∧
  (cpq q = [] →
     push_all q vs = Some (set_cpq q (take (N.to_nat (maxSize q)) vs)) ∧
     (length vs = S (N.to_nat (maxSize q)) →
        ∃ last, vs = take (N.to_nat (maxSize q)) vs ++ [last])).
Proof.
  intros Hm Hl. split.
  - intros v Hf. by rewrite Push_full_skip.
  - intros He. split.
    + rewrite push_all_skip; [| done | done |].
      * rewrite He. cbn. by rewrite Nat.sub_0_r.
      * unfold within_capacity, size. rewrite He. cbn. lia.
    + intros Hlen.
      pose proof (take_drop (N.to_nat (maxSize q)) vs) as Htd.
      pose proof (length_drop vs (N.to_nat (maxSize q))) as Hld.
      destruct (drop (N.to_nat (maxSize q)) vs) as [|x [|y l]];
        cbn in Hld; [lia | by exists x | lia].
Qed.

Lemma push_all_drop vs : ∀ q,
  listening q → full_mode q = DROP_FIRST → maxSize q ≠ 0%N →
  within_capacity q →
  push_all q vs =
    Some (set_cpq q (drop (length (cpq q ++ vs) - N.to_nat (maxSize q))
                          (cpq q ++ vs))).
Proof.
  induction vs as [|v vs IH]; intros q Hl Hm Hpos Hc.
  - unfold within_capacity, size in Hc. cbn. rewrite app_nil_r.
    replace (length (cpq q) - N.to_nat (maxSize q)) with 0 by lia.
    by rewrite drop_0, set_cpq_id.
  - cbn [push_all].
    destruct (decide (size q = maxSize q)) as [Hf | Hnf].
    + destruct (cpq q) as [|front rest] eqn:Hq.
      { unfold size in Hf. rewrite Hq in Hf. cbn in Hf. lia. }
      rewrite (Push_full_drop q v front rest) by done.
      cbn [push_state mbind option_bind].
      assert (within_capacity (set_cpq q (rest ++ [v]))) as Hc'.
      { unfold within_capacity, size in *. rewrite Hq in Hf. cbn in *.
        rewrite length_app. cbn. lia. }
      rewrite IH by done.
      rewrite set_cpq_set_cpq. cbn [cpq set_cpq]. f_equal. f_equal.
      rewrite <- app_assoc. cbn [app].
      unfold size in Hf. rewrite Hq in Hf. cbn [length] in Hf.
      cbn [length].
      replace (S (length (rest ++ v :: vs)) - N.to_nat (maxSize q))
        with (S (length (rest ++ v :: vs) - N.to_nat (maxSize q)))
        by (rewrite length_app; cbn [length]; lia).
      reflexivity.
    + rewrite Push_room by done. cbn [push_state mbind option_bind].
      assert (within_capacity (set_cpq q (cpq q ++ [v]))) as Hc'.
      { unfold within_capacity, size in *. cbn. rewrite length_app. cbn. lia. }
      rewrite IH by done.
      rewrite set_cpq_set_cpq. cbn [cpq set_cpq]. f_equal. f_equal.
      by rewrite <- app_assoc.
Qed.

(** C5. Under DROP_FIRST, with a consumer attached or [skip_if_no_consumer]
    off, a [Push] into a buffer at capacity removes the head element and
    then appends the new value; so, for a capacity of at least one, pushing
    into an empty queue, nothing draining, keeps the last [maxSize] values
    pushed, in order, in particular when [maxSize + 1] values are pushed. *)
Theorem DropOldest_keeps_last q vs :
  full_mode q = DROP_FIRST → listening q →
  (∀ v front rest, size q = maxSize q → cpq q = front :: rest →
     Push q v = PushStored (set_cpq q (rest ++ [v])) (notifier q)) ∧
  (cpq q = [] → maxSize q ≠ 0%N →
     push_all q vs =
       Some (set_cpq q (drop (length vs - N.to_nat (maxSize q)) vs)) ∧
     (length vs = S (N.to_nat (maxSize q)) →
        push_all q vs = Some (set_cpq q (drop 1 vs)))).
Proof.
  intros Hm Hl. split.
  - intros v front rest Hf Hq. by apply Push_full_drop with front.
  - intros He Hpos.
    assert (push_all q vs =
      Some (set_cpq q (drop (length vs - N.to_nat (maxSize q)) vs))) as Hall.
    { rewrite push_all_drop; [| done | done | done |].
      - by rewrite He.
      - unfold within_capacity, size. rewrite He. cbn. lia. }
    split; [done|]. intros Hlen. rewrite Hall.
    by replace (length vs - N.to_nat (maxSize q)) with 1 by lia.
Qed.

(** *** The capacity bound *)

Lemma Push_stored_inv q v q' n :
  Push q v = PushStored q' n →
  (size q ≠ maxSize q ∧ q' = set_cpq q (cpq q ++ [v])) ∨
  (size q = maxSize q ∧ ∃ front rest,
     cpq q = front :: rest ∧ q' = set_cpq q (rest ++ [v])).
Proof.
  unfold Push.
  destruct (skip_if_no_consumer q && bool_decide (consumer q = None)); [done|].
  cbn. destruct (N.eqb_spec (size q) (maxSize q)) as [Hf | Hnf].
  - destruct (full_mode q); [done | | done].
    destruct (cpq q) as [|front rest] eqn:Hq; [done|].
    intros [= <- _]. right. split; [done|]. by exists front, rest.
  - intros [= <- _]. by left.
Qed.

Lemma Push_resume_stored_inv q v q' n :
  Push_resume q v = PushStored q' n →
  (size q < maxSize q)%N ∧ q' = set_cpq q (cpq q ++ [v]).
Proof.
  unfold Push_resume. destruct (N.ltb_spec (size q) (maxSize q)); [|done].
  by intros [= <- _].
Qed.

Lemma Push_within q v q' n :
  within_capacity q → Push q v = PushStored q' n →
  within_capacity q' ∧ maxSize q' = maxSize q.
Proof.
  unfold within_capacity, size.
  intros Hc [[Hnf ->] | [Hf (front & rest & Hq & ->)]]%Push_stored_inv;
    unfold size in *; cbn; rewrite length_app; cbn.
  - split; [lia | done].
  - rewrite Hq in Hc. cbn in Hc. split; [lia | done].
Qed.

Lemma Push_resume_within q v q' n :
  Push_resume q v = PushStored q' n →
  within_capacity q' ∧ maxSize q' = maxSize q.
Proof.
  intros [Hlt ->]%Push_resume_stored_inv.
  unfold within_capacity, size in *. cbn. rewrite length_app. cbn.
  split; [lia | done].
Qed.

Lemma Consume_within q :
  within_capacity q →
  within_capacity (after (Consume q)) ∧ maxSize (after (Consume q)) = maxSize q.
Proof.
  unfold within_capacity, size. intros Hc.
  destruct (Consume_cases q) as [[_ ->] | [[_ ->] | (c & front & rest & _ & Hq & ->)]];
    cbn; [done | done |].
  rewrite Hq in Hc. cbn in Hc. split; [lia | done].
Qed.

Lemma q_step_within q op q' ds :
  within_capacity q → q_step q op = Some (q', ds) →
  within_capacity q' ∧ maxSize q' = maxSize q.
Proof.
  intros Hc. destruct op as [v | v | | | c]; cbn.
  - destruct (Push q v) as [| | q1 n | |] eqn:HP; cbn; try by intros [= <- _].
    intros [= <- _]. by eapply Push_within.
  - destruct (Push_resume q v) as [| | q1 n | |] eqn:HP; cbn;
      try by intros [= <- _].
    intros [= <- _]. by eapply Push_resume_within.
  - intros [= <- _]. by apply Consume_within.
  - intros [= <- _]. unfold within_capacity, size. cbn. split; [lia | done].
  - by intros [= <- _].
Qed.

Lemma q_step_defined q op :
  maxSize q ≠ 0%N → is_Some (q_step q op).
Proof.
  intros Hpos. destruct op as [v | v | | | c]; cbn; try done.
  - destruct (Push q v) as [| | q1 n | |] eqn:HP; cbn; try done.
    exfalso. revert HP. unfold Push.
    destruct (skip_if_no_consumer q && bool_decide (consumer q = None)); [done|].
    cbn. destruct (N.eqb_spec (size q) (maxSize q)) as [Hf | Hnf]; [|done].
    destruct (full_mode q); [done | | done].
    destruct (cpq q) as [|front rest] eqn:Hq; [|done].
    unfold size in Hf. rewrite Hq in Hf. cbn in Hf. lia.
  - unfold Push_resume. by destruct (size q <? maxSize q)%N.
Qed.

Lemma q_run_within ops : ∀ q q' ds,
  within_capacity q → q_run q ops = Some (q', ds) →
  within_capacity q' ∧ maxSize q' = maxSize q.
Proof.
  induction ops as [|op ops IH]; intros q q' ds Hc; cbn.
  - by intros [= <- _].
  - destruct (q_step q op) as [[q1 d1]|] eqn:Hs; [|done]. cbn.
    destruct (q_step_within _ _ _ _ Hc Hs) as [Hc1 Hm1].
    destruct (q_run q1 ops) as [[q2 d2]|] eqn:Hr; [|done]. cbn.
    intros [= <- _]. destruct (IH _ _ _ Hc1 Hr) as [Hc2 Hm2].
    split; [done | congruence].
Qed.

Lemma q_run_defined ops : ∀ q,
  within_capacity q → maxSize q ≠ 0%N → is_Some (q_run q ops).
Proof.
  induction ops as [|op ops IH]; intros q Hc Hpos; cbn; [done|].
  destruct (q_step_defined q op Hpos) as [[q1 d1] Hs]. rewrite Hs. cbn.
  destruct (q_step_within _ _ _ _ Hc Hs) as [Hc1 Hm1].
  destruct (IH q1 Hc1) as [[q2 d2] Hr]; [congruence|].
  by rewrite Hr.
Qed.

(** C1. The number of buffered items never exceeds [maxSize]: from a queue
    within its capacity (a new queue is), any sequence of [Push] under any
    of the three policies, wake-ups of suspended producers, [Consume],
    [Clear] and [SetConsumer] ends within capacity, and so does every prefix
    of it. For a capacity of at least one every such sequence has defined
    behaviour; the processor gives its queues [MAX_CAPACITY] = 1000. *)
Theorem capacity_never_exceeded q ops :
  within_capacity q →
  (∀ q' ds, q_run q ops = Some (q', ds) →
     (length (cpq q') ≤ N.to_nat (maxSize q'))%nat ∧ maxSize q' = maxSize q) ∧
  (maxSize q ≠ 0%N → is_Some (q_run q ops)) ∧
  (∀ fm skip notif, within_capacity (construct (T:=T) MAX_CAPACITY fm skip notif)).
Proof.
  intros Hc. split_and!.
  - intros q' ds Hr. destruct (q_run_within _ _ _ _ Hc Hr) as [Hc' Hm].
    unfold within_capacity, size in Hc'. split; [lia | done].
  - intros Hpos. by apply q_run_defined.
  - intros fm skip notif. unfold within_capacity, size. cbn. lia.
Qed.

(** *** First in, first out *)

Lemma fifo_run ops : ∀ q,
  no_loss q ops = true →
  ∃ q' ds, q_run q ops = Some (q', ds) ∧
    cpq q ++ pushed ops = ds.*2 ++ cpq q'.
Proof.
  induction ops as [|op ops IH]; intros q Hn.
  - exists q, []. cbn. by rewrite app_nil_r.
  - destruct op as [v | v | | | c]; cbn in Hn.
    + destruct (Push q v) as [| | q1 n | |] eqn:HP; try done.
      apply andb_true_iff in Hn as [Hlen%bool_decide_eq_true Hn].
      destruct (IH q1 Hn) as (q' & ds & Hr & Heq).
      exists q', ds. cbn. rewrite HP. cbn. rewrite Hr. cbn. split; [done|].
      rewrite <- Heq.
      destruct (Push_stored_inv _ _ _ _ HP)
        as [[_ ->] | [_ (front & rest & Hq & ->)]]; cbn in *.
      * by rewrite <- app_assoc.
      * rewrite Hq in Hlen. rewrite length_app in Hlen. cbn in Hlen. lia.
    + destruct (Push_resume q v) as [| | q1 n | |] eqn:HP; try done.
      destruct (IH q1 Hn) as (q' & ds & Hr & Heq).
      exists q', ds. cbn. rewrite HP. cbn. rewrite Hr. cbn. split; [done|].
      rewrite <- Heq.
      destruct (Push_resume_stored_inv _ _ _ _ HP) as [_ ->]. cbn.
      by rewrite <- app_assoc.
    + destruct (IH _ Hn) as (q' & ds & Hr & Heq).
      exists q', (match callback (Consume q) with
                  | Some d => [d] | None => [] end ++ ds).
      split; [by cbn; rewrite Hr|].
      change (pushed (OpConsume :: ops)) with (pushed ops).
      revert Heq.
      destruct (Consume_cases q)
        as [[_ ->] | [[_ ->] | (c & front & rest & _ & Hq & ->)]]; cbn;
        [done | done |].
      rewrite Hq. cbn. by intros ->.
    + done.
    + destruct (IH _ Hn) as (q' & ds & Hr & Heq).
      exists q', ds. cbn. rewrite Hr. by cbn.
Qed.

(** C9. First in, first out, end to end: along any sequence of pushes and
    consumes on a queue that starts empty in which no value is lost, the
    values handed to the consumer, followed by those still buffered, are the
    values pushed, in the order pushed; once the buffer is drained the
    values delivered are exactly the values pushed, in order. *)
Theorem fifo_end_to_end q ops :
  cpq q = [] → no_loss q ops = true →
  ∃ q' ds, q_run q ops = Some (q', ds) ∧
    ds.*2 ++ cpq q' = pushed ops ∧
    (cpq q' = [] → ds.*2 = pushed ops).
Proof.
  intros He Hn. destruct (fifo_run ops q Hn) as (q' & ds & Hr & Heq).
  rewrite He in Heq. cbn in Heq. exists q', ds. split_and!; [done | done |].
  intros Hd. rewrite Hd, app_nil_r in Heq. done.
Qed.

End Facts.

(** *** The theorems at concrete queues *)

Lemma Push_dropped_without_consumer_witness :
  let q := construct (T:=nat) MAX_CAPACITY SKIP_LAST true true in
  skip_if_no_consumer q = true ∧ consumer q = None ∧
  push_all q [4; 5; 6] = Some q ∧ size (SetConsumer q (Some 7)) = 0%N.
Proof.
  intros q. split; [reflexivity|]. split; [reflexivity|].
  destruct (Push_dropped_without_consumer q [4; 5; 6] (Some 7) eq_refl eq_refl)
    as (_ & Hall & _ & Hsize).
  split; [exact Hall | exact (Hsize eq_refl)].
Defined.

Lemma SkipNewest_keeps_first_witness :
  let q := SetConsumer (construct (T:=nat) 2 SKIP_LAST true true) (Some 7) in
  full_mode q = SKIP_LAST ∧ listening q ∧
  push_all q [4; 5; 6] = Some (set_cpq q [4; 5]).
Proof.
  intros q. split; [reflexivity|].
  assert (listening q) as Hl by (left; eexists; reflexivity).
  split; [exact Hl|].
  destruct (SkipNewest_keeps_first q [4; 5; 6] eq_refl Hl) as [_ Hall].
  exact (proj1 (Hall eq_refl)).
Defined.

Lemma DropOldest_keeps_last_witness :
  let q := construct (T:=nat) 2 DROP_FIRST false true in
  full_mode q = DROP_FIRST ∧ listening q ∧
  push_all q [4; 5; 6] = Some (set_cpq q [5; 6]).
Proof.
  intros q. split; [reflexivity|].
  assert (listening q) as Hl by (right; reflexivity).
  split; [exact Hl|].
  destruct (DropOldest_keeps_last q [4; 5; 6] eq_refl Hl) as [_ Hall].
  refine (proj1 (Hall eq_refl _)). vm_compute. discriminate.
Defined.

Lemma capacity_never_exceeded_witness :
  let q := construct (T:=nat) 2 DROP_FIRST false true in
  let ops := [OpPush 4; OpPush 5; OpPush 6; OpConsume; OpResume 7; OpClear] in
  within_capacity q ∧ is_Some (q_run q ops).
Proof.
  intros q ops.
  assert (within_capacity q) as Hc by (vm_compute; discriminate).
  split; [exact Hc|].
  destruct (capacity_never_exceeded q ops Hc) as (_ & Hdef & _).
  apply Hdef. vm_compute. discriminate.
Defined.

Lemma fifo_end_to_end_witness :
  let q := SetConsumer (construct (T:=nat) 2 WAIT true true) (Some 7) in
  let ops := [OpPush 4; OpPush 5; OpConsume; OpPush 6; OpConsume; OpConsume] in
  cpq q = [] ∧ no_loss q ops = true ∧
  ∃ q' ds, q_run q ops = Some (q', ds) ∧ ds.*2 ++ cpq q' = [4; 5; 6] ∧
    (cpq q' = [] → ds.*2 = [4; 5; 6]).
Proof.
  intros q ops. split; [reflexivity|]. split; [reflexivity|].
  exact (fifo_end_to_end q ops eq_refl eq_refl).
Defined.

End QueueFacts.

(** ** Properties of the processor *)

Module ProcessorFacts.
Import MQP.
Section Facts.
Context {ValueType : Type}.
Implicit Types (p : CMultiQueueProcessor ValueType) (s : System ValueType)
  (a : Action ValueType) (acts : list (Action ValueType)) (id key : Z).

(** *** CreateQueue *)

(** C8. [CreateQueue(id, fm, skip)] on a key without a queue returns true and
    maps the key to a new queue: empty, of capacity 1000, with the policy and
    flag given and no consumer; the other queues, the subscribed keys and the
    flags stay as they were. On a key that has a queue it returns false and
    changes nothing: the existing queue is not overwritten. *)
Theorem CreateQueue_new_or_refused p id fm skip :
  (queues p !! id = None →
     (CreateQueue p id fm skip).1 = true ∧
     ∃ q, queues (CreateQueue p id fm skip).2 !! id = Some q ∧
       q = CPQ.construct MAX_CAPACITY fm skip true ∧
       CPQ.cpq q = [] ∧ CPQ.maxSize q = 1000%N ∧
       CPQ.full_mode q = fm ∧ CPQ.skip_if_no_consumer q = skip ∧
       CPQ.consumer q = None ∧
       (∀ id', id' ≠ id →
          queues (CreateQueue p id fm skip).2 !! id' = queues p !! id') ∧
       keys (CreateQueue p id fm skip).2 = keys p ∧
       running (CreateQueue p id fm skip).2 = running p ∧
       data_ready (CreateQueue p id fm skip).2 = data_ready p) ∧
  (is_Some (queues p !! id) → CreateQueue p id fm skip = (false, p)).
Proof.
  unfold CreateQueue. split.
  - intros ->. cbn. split; [done|].
    eexists. split; [apply lookup_insert_eq|].
    split_and!; try done.
    intros id' Hne. by apply lookup_insert_ne.
  - by intros [q ->].
Qed.

(** *** The public operations as sequences of critical sections *)

Lemma Subscribe_as_steps s id cons :
  crashed (pc s) = false → holds_keys_mtx (pc s) = false →
  sys_run s (do_Subscribe id cons) = set_proc s (Subscribe (proc s) id cons).
Proof.
  intros Hc Hk. cbn. unfold sys_step. rewrite Hc. cbn. by rewrite Hc, Hk.
Qed.

Lemma Unsubscribe_as_steps s id :
  crashed (pc s) = false → holds_keys_mtx (pc s) = false →
  sys_run s (do_Unsubscribe id) = set_proc s (Unsubscribe (proc s) id).
Proof.
  intros Hc Hk. cbn. unfold sys_step. rewrite Hc. cbn. by rewrite Hc, Hk.
Qed.

Lemma DeleteQueue_as_steps s id :
  crashed (pc s) = false → holds_keys_mtx (pc s) = false →
  sys_run s (do_DeleteQueue id) = set_proc s (DeleteQueue (proc s) id).
Proof.
  intros Hc Hk. unfold do_DeleteQueue, sys_run. rewrite fold_left_app.
  fold (sys_run s (do_Unsubscribe id)). rewrite Unsubscribe_as_steps by done.
  cbn. unfold sys_step. cbn. by rewrite Hc.
Qed.

Lemma Enqueue_as_steps s id value :
  crashed (pc s) = false →
  match Enqueue (proc s) id value with
  | EnqReturned p' => sys_run s (do_Enqueue (proc s) id value) = set_proc s p'
  | EnqWaiting => sys_run s (do_Enqueue (proc s) id value) = s
  | EnqUndefined => pc (sys_run s (do_Enqueue (proc s) id value)) = PcTerminated
  end.
Proof.
  intros Hc. unfold Enqueue, do_Enqueue.
  destruct (GetQueue (proc s) id) as [q|] eqn:Hq.
  - destruct (CPQ.Push q value) as [| | q' [|] | |] eqn:HP; cbn;
      unfold sys_step; rewrite Hc, ?Hq, ?HP; cbn; rewrite ?Hc; try done;
      by destruct s.
  - cbn. unfold sys_step. rewrite Hc, Hq. by destruct s.
Qed.

(** *** Subscribe on a key without a queue *)

Lemma Subscribe_unknown p id cons :
  GetQueue p id = None →
  keys (Subscribe p id cons) = {[id]} ∪ keys p ∧
  queues (Subscribe p id cons) = queues p.
Proof. intros Hq. unfold Subscribe, attach. by rewrite Hq. Qed.

(** The consumer given to [Subscribe] for a key without a queue is kept
    nowhere: a queue created for the key afterwards has no consumer, and
    [Consume] on it returns false whatever it holds. *)
Lemma Subscribe_then_CreateQueue p id cons fm skip :
  GetQueue p id = None →
  ∃ q, GetQueue (CreateQueue (Subscribe p id cons) id fm skip).2 id = Some q ∧
    CPQ.consumer q = None ∧
    ∀ l, CPQ.ret (CPQ.Consume (CPQ.set_cpq q l)) = false.
Proof.
  intros Hq. destruct (Subscribe_unknown p id cons Hq) as [_ Hqs].
  unfold GetQueue in *. unfold CreateQueue. rewrite Hqs, Hq. cbn.
  eexists. split; [apply lookup_insert_eq|]. by split.
Qed.

Lemma sweep_order_singleton id : sweep_order {[id]} = [id].
Proof. unfold sweep_order. by rewrite elements_singleton. Qed.

Lemma attach_unknown (p : CMultiQueueProcessor ValueType) id cons :
  GetQueue p id = None → attach p id cons = p.
Proof. intros H. unfold attach. by rewrite H. Qed.

Lemma Subscribe_first id cons :
  Subscribe (proc (constructed (ValueType:=ValueType))) id cons =
  mkProcessor {[id]} ∅ true false.
Proof.
  unfold Subscribe. rewrite attach_unknown by apply lookup_empty.
  cbn. unfold set_keys. cbn. f_equal. apply (right_id_L ∅ (∪)).
Qed.

(** C2. On a new processor, [Subscribe(id, consumer)] for a key that has no
    queue records the key in [keys] and does nothing else; the worker then
    leaves its wait, starts a sweep, fetches a null pointer for that key and
    its [assert(q)] fails: the lookup of a subscribed key's queue does not
    succeed in every reachable state. *)
Theorem Subscribe_unknown_key_fails_assert id cons :
  let s1 := sys_run (constructed (ValueType:=ValueType)) (do_Subscribe id cons) in
  let s2 := sys_run s1 [AWorker; AWorker; AWorker; AWorker] in
  proc s1 = Subscribe (proc constructed) id cons ∧
  id ∈ keys (proc s1) ∧ GetQueue (proc s1) id = None ∧
  pc s2 = PcAssert.
Proof.
  assert (sys_run (constructed (ValueType:=ValueType)) (do_Subscribe id cons)
          = mkSystem (Subscribe (proc constructed) id cons) PcLoop []) as Hs1.
  { unfold Subscribe. cbn. by rewrite !attach_unknown by apply lookup_empty. }
  intros s1 s2. subst s1 s2. rewrite Hs1, Subscribe_first. clear Hs1.
  split_and!; [done | cbn; set_solver | apply lookup_empty |].
  cbn. rewrite bool_decide_eq_false_2 by set_solver. cbn.
  rewrite sweep_order_singleton. cbn. unfold GetQueue. cbn.
  by rewrite lookup_empty.
Qed.
(** *** After StopProcessing *)

Lemma sweep_order_NoDup (ks : gset Z) : NoDup (sweep_order ks).
Proof. unfold sweep_order. rewrite merge_sort_Permutation. apply NoDup_elements. Qed.

Lemma stop_bound_nil c : stop_bound c [].
Proof. destruct c; cbn; auto using NoDup_nil_2, prefix_nil. Qed.

Lemma stop_bound_NoDup c ks :
  NoDup (pending c) → stop_bound c ks → NoDup ks.
Proof.
  destruct c; cbn; intros Hnd Hb; subst; try done; try apply NoDup_nil_2;
    destruct Hb as [l ->]; by apply NoDup_app in Hnd as [? _].
Qed.

(** A step that leaves the log alone and the worker where it is, or ends the
    program. *)
Lemma quiet_step_bound s s1 :
  calls s1 = calls s → (pc s1 = pc s ∨ crashed (pc s1) = true) →
  (running (proc s1) = false ∨ crashed (pc s1) = true) →
  NoDup (pending (pc s)) →
  stopped s1 ∧ NoDup (pending (pc s1)) ∧
  ∃ k, consumed_keys (calls s1) = consumed_keys (calls s) ++ k ∧
    ∀ ks1, stop_bound (pc s1) ks1 → stop_bound (pc s) (k ++ ks1).
Proof.
  intros Hc Hpc Hr Hnd. split; [done|]. split.
  - destruct Hpc as [-> | Hcr]; [done|].
    destruct (pc s1); try done; apply NoDup_nil_2.
  - exists []. rewrite Hc, app_nil_r. split; [done|]. intros ks1 Hb. cbn.
    destruct Hpc as [<- | Hcr]; [done|].
    destruct (pc s1); try done; cbn in Hb; subst; apply stop_bound_nil.
Qed.

Lemma worker_step_after_stop s :
  running (proc s) = false → NoDup (pending (pc s)) →
  stopped (worker_step s) ∧ NoDup (pending (pc (worker_step s))) ∧
  ∃ k, consumed_keys (calls (worker_step s)) = consumed_keys (calls s) ++ k ∧
    ∀ ks1, stop_bound (pc (worker_step s)) ks1 → stop_bound (pc s) (k ++ ks1).
Proof.
  intros Hr Hnd. unfold worker_step, stopped.
  destruct (pc s) as [| | | [|key rest] | rest | rest | | |] eqn:Hpc;
    cbn in Hnd.
  - rewrite Hr. cbn. split_and!; [by left | apply NoDup_nil_2 |].
    exists []. rewrite app_nil_r. split; [done|]. by intros ks1 ->.
  - rewrite Hr, orb_true_r. cbn.
    split_and!; [by left | apply NoDup_nil_2 |].
    exists []. rewrite app_nil_r. by split.
  - cbn. split_and!; [by left | apply sweep_order_NoDup |].
    exists []. rewrite app_nil_r. split; [done|]. intros ks1 Hb. cbn.
    apply (stop_bound_NoDup (PcVisit (sweep_order (keys (proc s))))); [|done].
    apply sweep_order_NoDup.
  - cbn. split_and!; [by left | apply NoDup_nil_2 |].
    exists []. rewrite app_nil_r. split; [done|]. by intros ks1 ->.
  - apply NoDup_cons in Hnd as [Hnotin Hnd].
    destruct (GetQueue (set_data_ready (proc s) false) key) as [q|]; cbn.
    + split_and!; [by left | done |]. exists [key]. split.
      * unfold consumed_keys. by rewrite map_app.
      * intros ks1 Hb. cbn. by apply prefix_cons.
    + split_and!; [by right | apply NoDup_nil_2 |].
      exists []. rewrite app_nil_r. split; [done|]. intros ks1 ->.
      apply prefix_nil.
  - destruct (data_ready (proc s));
      [| destruct (all_queues_empty _ _) as [[|]|]]; cbn;
      (split_and!; [by left | first [done | apply NoDup_nil_2] |]);
      exists []; rewrite app_nil_r; (split; [done|]); intros ks1 Hb; cbn;
      first [done | subst; apply prefix_nil].
  - rewrite Hr, orb_true_r. cbn. split_and!; [by left | done |].
    exists []. rewrite app_nil_r. split; [done|]. by intros ks1 Hb.
  - rewrite Hpc. split_and!; [by left | apply NoDup_nil_2 |].
    exists []. rewrite app_nil_r. by split.
  - rewrite Hpc. split_and!; [by right | apply NoDup_nil_2 |].
    exists []. rewrite app_nil_r. by split.
  - rewrite Hpc. split_and!; [by right | apply NoDup_nil_2 |].
    exists []. rewrite app_nil_r. by split.
Qed.

Lemma sys_step_after_stop s a :
  stopped s → NoDup (pending (pc s)) →
  stopped (sys_step s a) ∧ NoDup (pending (pc (sys_step s a))) ∧
  ∃ k, consumed_keys (calls (sys_step s a)) = consumed_keys (calls s) ++ k ∧
    ∀ ks1, stop_bound (pc (sys_step s a)) ks1 → stop_bound (pc s) (k ++ ks1).
Proof.
  intros Hst Hnd. unfold sys_step.
  destruct (crashed (pc s)) eqn:Hcr.
  { split_and!; [done | done |]. exists []. rewrite app_nil_r. by split. }
  destruct Hst as [Hr | Hst]; [|congruence].
  destruct a as [id fm skip | id c | id | id | id | id v | id v | | | |].
  - apply quiet_step_bound; cbn; auto.
    left. unfold CreateQueue. by destruct (queues (proc s) !! id).
  - apply quiet_step_bound; cbn; auto.
    left. unfold attach. by destruct (GetQueue (proc s) id).
  - destruct (holds_keys_mtx (pc s)); apply quiet_step_bound; cbn; auto.
  - destruct (holds_keys_mtx (pc s)); apply quiet_step_bound; cbn; auto.
  - apply quiet_step_bound; cbn; auto.
  - destruct (GetQueue (proc s) id) as [q|]; [|by apply quiet_step_bound; auto].
    destruct (CPQ.Push q v); apply quiet_step_bound; cbn; auto.
  - destruct (GetQueue (proc s) id) as [q|];
      [|by apply quiet_step_bound; cbn; auto].
    destruct (CPQ.Push_resume q v); apply quiet_step_bound; cbn; auto.
  - apply quiet_step_bound; cbn; auto.
  - apply quiet_step_bound; cbn; auto.
  - rewrite Hr. apply quiet_step_bound; cbn; auto.
  - by apply worker_step_after_stop.
Qed.

Lemma sys_run_after_stop acts : ∀ s,
  stopped s → NoDup (pending (pc s)) →
  ∃ ks, consumed_keys (calls (sys_run s acts)) = consumed_keys (calls s) ++ ks ∧
    stop_bound (pc s) ks.
Proof.
  induction acts as [|a acts IH]; intros s Hst Hnd.
  - exists []. rewrite app_nil_r. split; [done | apply stop_bound_nil].
  - destruct (sys_step_after_stop s a Hst Hnd) as (Hst1 & Hnd1 & k & Hk & Hb).
    destruct (IH _ Hst1 Hnd1) as (ks1 & Hks1 & Hb1).
    exists (k ++ ks1). split; [|by apply Hb].
    cbn. unfold sys_run in Hks1. by rewrite Hks1, Hk, app_assoc.
Qed.

Lemma sys_step_pending_NoDup s a :
  NoDup (pending (pc s)) → NoDup (pending (pc (sys_step s a))).
Proof.
  intros Hnd. unfold sys_step. destruct (crashed (pc s)); [done|].
  destruct a as [id fm skip | id c | id | id | id | id v | id v | | | |];
    cbn; try done.
  - by destruct (holds_keys_mtx (pc s)).
  - by destruct (holds_keys_mtx (pc s)).
  - destruct (GetQueue (proc s) id) as [q|]; [|done].
    destruct (CPQ.Push q v); cbn; first [done | apply NoDup_nil_2].
  - destruct (GetQueue (proc s) id) as [q|]; [|apply NoDup_nil_2].
    destruct (CPQ.Push_resume q v); cbn; first [done | apply NoDup_nil_2].
  - destruct (running (proc s)); [done | apply NoDup_nil_2].
  - unfold worker_step.
    destruct (pc s) as [| | | [|key rest] | rest | rest | | |] eqn:Hpc;
      cbn in Hnd.
    + destruct (running (proc s)); apply NoDup_nil_2.
    + destruct (_ || _); cbn; [apply NoDup_nil_2 | by rewrite Hpc].
    + apply sweep_order_NoDup.
    + apply NoDup_nil_2.
    + apply NoDup_cons in Hnd as [_ Hnd].
      destruct (GetQueue _ key); cbn; [done | apply NoDup_nil_2].
    + destruct (data_ready (proc s));
        [| destruct (all_queues_empty _ _) as [[|]|]]; cbn;
        first [done | apply NoDup_nil_2].
    + destruct (_ || _); cbn; [done | by rewrite Hpc].
    + rewrite Hpc. apply NoDup_nil_2.
    + rewrite Hpc. apply NoDup_nil_2.
    + rewrite Hpc. apply NoDup_nil_2.
Qed.

Lemma reachable_pending_NoDup acts : ∀ s,
  NoDup (pending (pc s)) → NoDup (pending (pc (sys_run s acts))).
Proof.
  induction acts as [|a acts IH]; intros s Hnd; [done|].
  cbn. apply IH. by apply sys_step_pending_NoDup.
Qed.


Lemma sys_run_stopped acts : ∀ s,
  stopped s → NoDup (pending (pc s)) → stopped (sys_run s acts).
Proof.
  induction acts as [|a acts IH]; intros s Hst Hnd; [done|].
  destruct (sys_step_after_stop s a Hst Hnd) as (Hst1 & Hnd1 & _).
  cbn. by apply IH.
Qed.

(** *** The sweep that follows a stop *)

Lemma sys_run_crashed acts : ∀ s, crashed (pc s) = true → sys_run s acts = s.
Proof.
  induction acts as [|a acts IH]; intros s Hc; [done|].
  change (sys_run s (a :: acts)) with (sys_run (sys_step s a) acts).
  assert (sys_step s a = s) as -> by (unfold sys_step; by rewrite Hc).
  by apply IH.
Qed.

Lemma sys_run_app s acts1 acts2 :
  sys_run s (acts1 ++ acts2) = sys_run (sys_run s acts1) acts2.
Proof. apply fold_left_app. Qed.

(** Between two sweeps, with [running] false: a step other than the one
    that takes [keys_mtx] calls nothing and leaves the worker between
    sweeps, or ends the program. *)
Lemma between_sweeps_step s a :
  running (proc s) = false → pc s = PcWaitKeys ∨ pc s = PcLockKeys →
  ¬ (pc s = PcLockKeys ∧ a = AWorker) →
  calls (sys_step s a) = calls s ∧
  (crashed (pc (sys_step s a)) = true ∨
   running (proc (sys_step s a)) = false ∧
   (pc (sys_step s a) = PcWaitKeys ∨ pc (sys_step s a) = PcLockKeys)).
Proof.
  intros Hr Hpc Hnot. unfold sys_step.
  assert (crashed (pc s) = false) as -> by (by destruct Hpc as [-> | ->]).
  assert (holds_keys_mtx (pc s) = false) as Hh by (by destruct Hpc as [-> | ->]).
  destruct a as [id fm skip | id c | id | id | id | id v | id v | | | |]; cbn.
  - split; [done|]. right. split; [|done]. unfold CreateQueue.
    by destruct (queues (proc s) !! id).
  - split; [done|]. right. split; [|done]. unfold attach.
    by destruct (GetQueue (proc s) id).
  - rewrite Hh. cbn. split; [done|]. by right.
  - rewrite Hh. cbn. split; [done|]. by right.
  - split; [done|]. by right.
  - destruct (GetQueue (proc s) id) as [q|]; [|split; [done|]; by right].
    destruct (CPQ.Push q v); cbn; (split; [done|]); try (by right); by left.
  - destruct (GetQueue (proc s) id) as [q|]; [|split; [done|]; by left].
    destruct (CPQ.Push_resume q v); cbn; (split; [done|]); try (by right); by left.
  - split; [done|]. by right.
  - split; [done|]. by right.
  - rewrite Hr. cbn. split; [done|]. by left.
  - unfold worker_step. destruct Hpc as [Hpc | Hpc]; rewrite Hpc.
    + rewrite Hr, orb_true_r. cbn. split; [done|]. right. split; [done|]. by right.
    + by destruct Hnot.
Qed.

Lemma takes_lock_dec s a :
  (pc s = PcLockKeys ∧ a = AWorker) ∨ ¬ (pc s = PcLockKeys ∧ a = AWorker).
Proof.
  destruct (decide (pc s = PcLockKeys)) as [Hl | Hnl]; [|right; by intros [? _]].
  destruct a; try (right; intros [_ ?]; discriminate). by left.
Qed.

Lemma between_sweeps_run acts : ∀ s,
  running (proc s) = false → pc s = PcWaitKeys ∨ pc s = PcLockKeys →
  calls (sys_run s acts) = calls s ∨
  ∃ acts1 acts2, acts = acts1 ++ AWorker :: acts2 ∧
    pc (sys_run s acts1) = PcLockKeys ∧
    running (proc (sys_run s acts1)) = false ∧
    calls (sys_run s acts1) = calls s.
Proof.
  induction acts as [|a acts IH]; intros s Hr Hpc; [by left|].
  destruct (takes_lock_dec s a) as [[Hl ->] | Hnot].
  { right. by exists [], acts. }
  change (sys_run s (a :: acts)) with (sys_run (sys_step s a) acts).
  destruct (between_sweeps_step s a Hr Hpc Hnot) as [Hc [Hcr | [Hr' Hpc']]].
  - left. by rewrite sys_run_crashed.
  - destruct (IH _ Hr' Hpc') as [Hsame | (acts1 & acts2 & -> & Hp1 & Hr1 & Hc1)].
    + left. congruence.
    + right. exists (a :: acts1), acts2.
      change (sys_run s (a :: acts1)) with (sys_run (sys_step s a) acts1).
      split_and!; [done | done | done | congruence].
Qed.

Lemma no_restart_step s a :
  running (proc s) = false → restarts a = false →
  running (proc (sys_step s a)) = false.
Proof.
  intros Hr Ha. unfold sys_step. destruct (crashed (pc s)); [done|].
  destruct a as [id fm skip | id c | id | id | id | id v | id v | | | |];
    cbn; try done.
  - unfold CreateQueue. by destruct (queues (proc s) !! id).
  - unfold attach. by destruct (GetQueue (proc s) id).
  - by destruct (holds_keys_mtx (pc s)).
  - by destruct (holds_keys_mtx (pc s)).
  - destruct (GetQueue (proc s) id) as [q|]; [|done]. by destruct (CPQ.Push q v).
  - destruct (GetQueue (proc s) id) as [q|]; [|done].
    by destruct (CPQ.Push_resume q v).
  - unfold worker_step.
    destruct (pc s) as [| | | [|key rest] | rest | rest | | |]; try done.
    + by rewrite Hr.
    + by destruct (_ || _).
    + cbn. by destruct (GetQueue _ key).
    + destruct (data_ready (proc s)); [done|].
      by destruct (all_queues_empty _ _) as [[|]|].
    + by destruct (_ || _).
Qed.

Lemma no_restart_run acts : ∀ s,
  running (proc s) = false → existsb restarts acts = false →
  running (proc (sys_run s acts)) = false.
Proof.
  induction acts as [|a acts IH]; intros s Hr Hno; [done|].
  cbn in Hno. apply orb_false_iff in Hno as [Ha Hno].
  change (sys_run s (a :: acts)) with (sys_run (sys_step s a) acts).
  apply IH; [by apply no_restart_step | done].
Qed.

(** C3, as the code has it. Once [running] is false, and provided
    [StartProcessing] is not called again, [running] stays false and the
    worker starts no sweep after the one in progress or, if it is between
    two sweeps, the one it is about to start (over the keys subscribed when
    it takes [keys_mtx]); but the [for] loop does not test [running]:
    whatever the other threads do, the worker may still call [Consume] on
    keys of that one sweep, at most once per key and in sweep order. *)
Theorem StopProcessing_ends_after_current_sweep s acts :
  running (proc s) = false → NoDup (pending (pc s)) →
  existsb restarts acts = false →
  running (proc (sys_run s acts)) = false ∧
  ∃ ks,
    consumed_keys (calls (sys_run s acts)) = consumed_keys (calls s) ++ ks ∧
    NoDup ks ∧ stop_sweep s acts ks.
Proof.
  intros Hr Hnd Hno. split; [by apply no_restart_run|].
  destruct (sys_run_after_stop acts s) as (ks & Hks & Hb); [by left | done |].
  assert (NoDup ks) as Hndks by (by eapply stop_bound_NoDup).
  unfold stop_sweep.
  destruct (pc s) as [| | | rest | rest | rest | | |] eqn:Hpc;
    try (exists ks; by split_and!).
  - destruct (between_sweeps_run acts s Hr) as
      [Hsame | (acts1 & acts2 & -> & Hp1 & Hr1 & Hc1)]; [by left | |].
    + exists []. rewrite Hsame, app_nil_r. split_and!; [done | constructor | by left].
    + rewrite sys_run_app.
      change (sys_run (sys_run s acts1) (AWorker :: acts2))
        with (sys_run (sys_step (sys_run s acts1) AWorker) acts2).
      assert (sys_step (sys_run s acts1) AWorker =
              set_pc (sys_run s acts1)
                (PcVisit (sweep_order (keys (proc (sys_run s acts1)))))) as ->.
      { unfold sys_step, worker_step. by rewrite Hp1. }
      destruct (sys_run_after_stop acts2
                  (set_pc (sys_run s acts1)
                     (PcVisit (sweep_order (keys (proc (sys_run s acts1)))))))
        as (ks' & Hks' & Hb'); [by left | apply sweep_order_NoDup |].
      exists ks'. cbn in Hks', Hb'. rewrite Hks', Hc1. split_and!; [done | |].
      * eapply (stop_bound_NoDup (PcVisit _)); [|exact Hb']. apply sweep_order_NoDup.
      * right. by exists acts1, acts2.
  - destruct (between_sweeps_run acts s Hr) as
      [Hsame | (acts1 & acts2 & -> & Hp1 & Hr1 & Hc1)]; [by right | |].
    + exists []. rewrite Hsame, app_nil_r. split_and!; [done | constructor | by left].
    + rewrite sys_run_app.
      change (sys_run (sys_run s acts1) (AWorker :: acts2))
        with (sys_run (sys_step (sys_run s acts1) AWorker) acts2).
      assert (sys_step (sys_run s acts1) AWorker =
              set_pc (sys_run s acts1)
                (PcVisit (sweep_order (keys (proc (sys_run s acts1)))))) as ->.
      { unfold sys_step, worker_step. by rewrite Hp1. }
      destruct (sys_run_after_stop acts2
                  (set_pc (sys_run s acts1)
                     (PcVisit (sweep_order (keys (proc (sys_run s acts1)))))))
        as (ks' & Hks' & Hb'); [by left | apply sweep_order_NoDup |].
      exists ks'. cbn in Hks', Hb'. rewrite Hks', Hc1. split_and!; [done | |].
      * eapply (stop_bound_NoDup (PcVisit _)); [|exact Hb']. apply sweep_order_NoDup.
      * right. by exists acts1, acts2.
Qed.
End Facts.

(** *** A stop in the middle of a sweep *)

(** C3 as stated fails. Two queues are created, subscribed and given one
    value each ([Enqueue] stores and notifies, a consumer being attached);
    the worker has entered its loop and taken the keys for a sweep when
    [StopProcessing] is called. It still calls [Consume] on both queues, and
    both calls deliver. *)
Lemma Consume_called_after_StopProcessing :
  let before : list (Action nat) :=
    [ACreateQueue 1 SKIP_LAST true; ACreateQueue 2 SKIP_LAST true]
    ++ do_Subscribe 1 (Some 10) ++ do_Subscribe 2 (Some 20)
    ++ [APush 1 5; ANotify; APush 2 6; ANotify]
    ++ [AWorker; AWorker; AWorker; AStopProcessing] in
  let s := sys_run constructed before in
  let s' := sys_run s [AWorker; AWorker; AWorker; AWorker] in
  running (proc s) = false ∧ calls s = [] ∧
  calls s' = [mkCall 1 true (Some (10, 5)); mkCall 2 true (Some (20, 6))] ∧
  calls s' ≠ calls s.
Proof.
  intros before s s'.
  assert (calls s' = [mkCall 1 true (Some (10, 5)); mkCall 2 true (Some (20, 6))])
    as Hcalls by (vm_compute; reflexivity).
  assert (calls s = []) as Hnone by (vm_compute; reflexivity).
  split; [vm_compute; reflexivity|]. split; [exact Hnone|].
  split; [exact Hcalls|]. rewrite Hcalls, Hnone. discriminate.
Qed.

Lemma StopProcessing_ends_after_current_sweep_witness :
  let before : list (Action nat) :=
    [ACreateQueue 1 SKIP_LAST true; ACreateQueue 2 SKIP_LAST true]
    ++ do_Subscribe 1 (Some 10) ++ do_Subscribe 2 (Some 20)
    ++ [APush 1 5; ANotify; APush 2 6; ANotify]
    ++ [AWorker; AWorker; AWorker; AStopProcessing] in
  let s := sys_run constructed before in
  let acts := [AWorker; APush 2 8; AWorker; AWorker; AWorker] in
  running (proc s) = false ∧ NoDup (pending (pc s)) ∧
  existsb restarts acts = false ∧
  ∃ ks,
    consumed_keys (calls (sys_run s acts)) = consumed_keys (calls s) ++ ks ∧
    NoDup ks ∧ stop_sweep s acts ks.
Proof.
  intros before s acts.
  assert (running (proc s) = false) as Hr by (vm_compute; reflexivity).
  assert (NoDup (pending (pc s))) as Hnd.
  { apply (bool_decide_unpack _). vm_compute. exact I. }
  split; [exact Hr|]. split; [exact Hnd|]. split; [reflexivity|].
  exact (proj2 (StopProcessing_ends_after_current_sweep s acts Hr Hnd eq_refl)).
Defined.

End ProcessorFacts.

#[local] Set Warnings "-clear-no-such-hyp".

(** ** Further properties of one queue *)

Module QueueExtras.
Import CPQ QueueFacts.
Section Facts.
Context {T : Type}.
Implicit Types (q : CPQueue T) (v : T) (vs : list T) (ops : list (QOp T)).

(** *** Draining *)

Lemma drain_run n : ∀ q c,
  consumer q = Some c →
  q_run q (replicate n OpConsume) =
    Some (set_cpq q (drop n (cpq q)), (λ v, (c, v)) <$> take n (cpq q)).
Proof.
  induction n as [|n IH]; intros q c Hc.
  - cbn. by rewrite drop_0, take_0, set_cpq_id.
  - cbn [replicate q_run q_step]. unfold Consume. rewrite Hc.
    destruct (cpq q) as [|front rest] eqn:Hq; cbn.
    + rewrite (IH q c Hc), Hq. by rewrite drop_nil, take_nil.
    + rewrite (IH (set_cpq q rest) c Hc). cbn. done.
Qed.

(** X1. With a consumer attached, [n] calls of [Consume] in a row hand it
    the first [n] buffered values, oldest first, and leave the rest; once the
    buffer is empty further calls return false and deliver nothing. *)
Theorem Consume_drains_in_order q c n :
  consumer q = Some c →
  q_run q (replicate n OpConsume) =
    Some (set_cpq q (drop n (cpq q)), (λ v, (c, v)) <$> take n (cpq q)) ∧
  (length (cpq q) ≤ n →
     ∃ q', q_run q (replicate n OpConsume) = Some (q', (λ v, (c, v)) <$> cpq q) ∧
       cpq q' = [] ∧ ret (Consume q') = false).
Proof.
  intros Hc. split; [by apply drain_run|]. intros Hn.
  rewrite (drain_run n q c Hc). eexists. split_and!.
  - by rewrite take_ge by done.
  - cbn. by apply drop_ge.
  - unfold Consume. cbn. rewrite Hc, drop_ge by done. done.
Qed.

(** *** The WAIT policy *)

(** X2. Under WAIT a [Push] into a full buffer suspends the producer, and
    waking it does not help while the buffer is full, in particular after a
    [Consume] that found no consumer. For a capacity of at least one it
    appends after [Clear], and after a [Consume] that delivered the head;
    in general a woken producer appends exactly when the buffer is below
    capacity. *)
Theorem WaitForSpace_until_room q v :
  full_mode q = WAIT → listening q → size q = maxSize q →
  Push q v = PushWaiting ∧
  Push_resume q v = PushWaiting ∧
  (consumer q = None → Push_resume (after (Consume q)) v = PushWaiting) ∧
  (maxSize q ≠ 0%N →
     Push_resume (Clear q) v = PushStored (set_cpq q [v]) (notifier q) ∧
     ∀ c, consumer q = Some c →
       ∃ front rest, cpq q = front :: rest ∧
         callback (Consume q) = Some (c, front) ∧
         Push_resume (after (Consume q)) v =
           PushStored (set_cpq q (rest ++ [v])) (notifier q)) ∧
  (∀ q', (∃ q'' n, Push_resume q' v = PushStored q'' n) ↔
         (size q' < maxSize q')%N).
Proof.
  intros Hm Hl Hf. split_and!.
  - unfold Push. rewrite listening_gate by done. cbn.
    by rewrite (proj2 (N.eqb_eq _ _) Hf), Hm.
  - unfold Push_resume. rewrite Hf. by rewrite N.ltb_irrefl.
  - intros Hc. unfold Consume. rewrite Hc. cbn.
    unfold Push_resume. rewrite Hf. by rewrite N.ltb_irrefl.
  - intros Hpos. split.
    + unfold Push_resume, Clear, size. cbn.
      destruct (_ <? _)%N eqn:E; [reflexivity | apply N.ltb_ge in E; cbn in E; lia].
    + intros c Hc. unfold size in Hf.
      destruct (cpq q) as [|front rest] eqn:Hq; [cbn in Hf; lia|].
      exists front, rest. split; [done|].
      unfold Consume. rewrite Hc, Hq. cbn. split; [done|].
      unfold Push_resume, size. cbn. cbn in Hf.
      destruct (_ <? _)%N eqn:E; [reflexivity | apply N.ltb_ge in E; lia].
  - intros q'. unfold Push_resume.
    destruct (N.ltb_spec (size q') (maxSize q')); split; try done.
    + intros _. by eexists _, _.
    + by intros (? & ? & ?).
    + lia.
Qed.

End Facts.

Lemma Consume_drains_in_order_witness :
  let q := SetConsumer (set_cpq (construct (T:=nat) 3 SKIP_LAST true true) [4; 5; 6]) (Some 7) in
  consumer q = Some 7 ∧
  q_run q (replicate 2 OpConsume) = Some (set_cpq q [6], [(7, 4); (7, 5)]).
Proof.
  intros q. split; [reflexivity|].
  exact (proj1 (Consume_drains_in_order q 7 2 eq_refl)).
Defined.

Lemma WaitForSpace_until_room_witness :
  let q := SetConsumer (set_cpq (construct (T:=nat) 2 WAIT true true) [4; 5]) (Some 7) in
  full_mode q = WAIT ∧ listening q ∧ size q = maxSize q ∧
  Push q 6 = PushWaiting.
Proof.
  intros q.
  assert (listening q) as Hl by (left; eexists; reflexivity).
  split; [reflexivity|]. split; [exact Hl|]. split; [reflexivity|].
  exact (proj1 (WaitForSpace_until_room q 6 eq_refl Hl eq_refl)).
Defined.

End QueueExtras.

(** ** Further properties of the public operations *)

Module ProcessorExtras.
Import MQP QueueFacts ProcessorFacts.
Section Facts.
Context {ValueType : Type}.
Implicit Types (p : CMultiQueueProcessor ValueType) (s : System ValueType)
  (a : Action ValueType) (acts : list (Action ValueType)) (id key : Z)
  (q : CPQ.CPQueue ValueType).

Lemma processor_eq p p' :
  keys p = keys p' → queues p = queues p' → running p = running p' →
  data_ready p = data_ready p' → p = p'.
Proof. destruct p, p'. cbn. by intros -> -> -> ->. Qed.

Lemma SetConsumer_SetConsumer q c c' :
  CPQ.SetConsumer (CPQ.SetConsumer q c) c' = CPQ.SetConsumer q c'.
Proof. reflexivity. Qed.

Lemma SetConsumer_id q : CPQ.SetConsumer q (CPQ.consumer q) = q.
Proof. by destruct q. Qed.

Lemma attach_known p id cons q :
  queues p !! id = Some q →
  attach p id cons = set_queues p (<[id := CPQ.SetConsumer q cons]> (queues p)).
Proof. intros Hq. unfold attach, GetQueue. by rewrite Hq. Qed.

(** *** Subscribe and Unsubscribe on a key that has a queue *)

(** X3. [Subscribe] on a key that has a queue attaches the consumer to it
    without touching what it buffers, records the key, and leaves the other
    queues and the flags alone; subscribing again replaces the consumer, so
    two calls amount to the second. *)
Theorem Subscribe_attaches_latest p id cons q :
  queues p !! id = Some q →
  queues (Subscribe p id cons) !! id = Some (CPQ.SetConsumer q cons) ∧
  keys (Subscribe p id cons) = {[id]} ∪ keys p ∧
  (∀ id', id' ≠ id →
     queues (Subscribe p id cons) !! id' = queues p !! id') ∧
  running (Subscribe p id cons) = running p ∧
  data_ready (Subscribe p id cons) = data_ready p ∧
  (∀ cons', Subscribe (Subscribe p id cons') id cons = Subscribe p id cons).
Proof.
  intros Hq. unfold Subscribe. rewrite (attach_known p id cons q Hq). cbn.
  split_and!; try done.
  - apply lookup_insert_eq.
  - intros id' Hne. by apply lookup_insert_ne.
  - intros cons'. rewrite (attach_known p id cons' q Hq). cbn.
    erewrite attach_known by apply lookup_insert_eq. cbn.
    apply processor_eq; cbn; try done.
    + set_solver.
    + by rewrite insert_insert_eq.
Qed.

Lemma Unsubscribe_effect p id :
  (id ∉ keys (Unsubscribe p id)) ∧
  (∀ id', id' ≠ id →
     (id' ∈ keys (Unsubscribe p id) ↔ id' ∈ keys p) ∧
     queues (Unsubscribe p id) !! id' = queues p !! id') ∧
  (queues p !! id = None → queues (Unsubscribe p id) = queues p) ∧
  (∀ q, queues p !! id = Some q →
     queues (Unsubscribe p id) !! id = Some (CPQ.SetConsumer q None) ∧
     CPQ.ret (CPQ.Consume (CPQ.SetConsumer q None)) = false ∧
     (CPQ.skip_if_no_consumer q = true →
        ∀ value, Enqueue (Unsubscribe p id) id value =
                 EnqReturned (Unsubscribe p id))).
Proof.
  unfold Unsubscribe. destruct (queues p !! id) as [q|] eqn:Hq.
  - rewrite (attach_known p id None q Hq). cbn. split_and!.
    + set_solver.
    + intros id' Hne. split; [set_solver | by apply lookup_insert_ne].
    + done.
    + intros q' [= <-]. split_and!; [apply lookup_insert_eq | done |].
      intros Hs value. unfold Enqueue, GetQueue. cbn.
      rewrite lookup_insert_eq. unfold CPQ.Push. cbn. by rewrite Hs.
  - rewrite attach_unknown by done. cbn. split_and!; [set_solver | | done | done].
    intros id' Hne. split; [set_solver | done].
Qed.

(** X4. [Unsubscribe] removes the key from [keys] and detaches the consumer
    of its queue, if it has one, keeping the buffered items; other keys and
    queues are untouched. Afterwards [Consume] on that queue returns false,
    and with [skip_if_no_consumer] set every [Enqueue] on the key is dropped. *)
Theorem Unsubscribe_detaches p id :
  (id ∉ keys (Unsubscribe p id)) ∧
  (∀ id', id' ≠ id →
     (id' ∈ keys (Unsubscribe p id) ↔ id' ∈ keys p) ∧
     queues (Unsubscribe p id) !! id' = queues p !! id') ∧
  (queues p !! id = None → queues (Unsubscribe p id) = queues p) ∧
  (∀ q, queues p !! id = Some q →
     queues (Unsubscribe p id) !! id = Some (CPQ.SetConsumer q None) ∧
     CPQ.ret (CPQ.Consume (CPQ.SetConsumer q None)) = false ∧
     (CPQ.skip_if_no_consumer q = true →
        ∀ value, Enqueue (Unsubscribe p id) id value =
                 EnqReturned (Unsubscribe p id))).
Proof. apply Unsubscribe_effect. Qed.

(** X5. [Unsubscribe] undoes [Subscribe]: on a key that was not subscribed
    and whose queue, if any, had no consumer, the processor afterwards is the
    one before. *)
Theorem Unsubscribe_undoes_Subscribe p id cons :
  id ∉ keys p →
  (∀ q, queues p !! id = Some q → CPQ.consumer q = None) →
  Unsubscribe (Subscribe p id cons) id = p.
Proof.
  intros Hk Hc. unfold Unsubscribe, Subscribe.
  destruct (queues p !! id) as [q|] eqn:Hq.
  - rewrite (attach_known p id cons q Hq). cbn.
    erewrite attach_known by apply lookup_insert_eq. cbn.
    apply processor_eq; cbn; try done.
    + set_solver.
    + rewrite insert_insert_eq, SetConsumer_SetConsumer.
      pose proof (Hc q eq_refl) as Hn.
      replace (CPQ.SetConsumer q None) with q
        by (destruct q; cbn in Hn; by subst).
      by apply insert_id.
  - rewrite (attach_unknown p id cons) by done. cbn.
    rewrite attach_unknown by (unfold GetQueue; cbn; done). cbn.
    apply processor_eq; cbn; try done. set_solver.
Qed.

(** *** DeleteQueue *)

Lemma DeleteQueue_effect p id :
  queues (DeleteQueue p id) !! id = None ∧
  (id ∉ keys (DeleteQueue p id)) ∧
  (∀ id', id' ≠ id →
     queues (DeleteQueue p id) !! id' = queues p !! id' ∧
     (id' ∈ keys (DeleteQueue p id) ↔ id' ∈ keys p)) ∧
  (queues p !! id = None → id ∉ keys p → DeleteQueue p id = p).
Proof.
  destruct (Unsubscribe_effect p id) as (Hk & Hother & Hnone & Hsome).
  unfold DeleteQueue, erase_queue. cbn. split_and!.
  - apply lookup_delete_eq.
  - done.
  - intros id' Hne. destruct (Hother id' Hne) as [Hk' Hq'].
    split; [|done]. by rewrite lookup_delete_ne.
  - intros Hq Hnk. unfold Unsubscribe. rewrite attach_unknown by done.
    apply processor_eq; cbn; [set_solver | by apply delete_id | done | done].
Qed.

(** X6. After [DeleteQueue] the key has no queue and is not subscribed;
    every other key keeps its queue and its subscription; on a key that has
    no queue and is not subscribed the call changes nothing. *)
Theorem DeleteQueue_removes p id :
  queues (DeleteQueue p id) !! id = None ∧
  (id ∉ keys (DeleteQueue p id)) ∧
  (∀ id', id' ≠ id →
     queues (DeleteQueue p id) !! id' = queues p !! id' ∧
     (id' ∈ keys (DeleteQueue p id) ↔ id' ∈ keys p)) ∧
  (queues p !! id = None → id ∉ keys p → DeleteQueue p id = p).
Proof. apply DeleteQueue_effect. Qed.

(** X7. After [DeleteQueue] the key can be created again, and gets a new
    empty queue; a second [CreateQueue] on the same key is refused whatever
    policy it asks for and keeps the first queue; [DeleteQueue] undoes a
    [CreateQueue] on a key that had no queue and was not subscribed. *)
Theorem CreateQueue_DeleteQueue_compose p id fm skip :
  CreateQueue (DeleteQueue p id) id fm skip =
    (true, set_queues (DeleteQueue p id)
             (<[id := CPQ.construct MAX_CAPACITY fm skip true]>
                (queues (DeleteQueue p id)))) ∧
  (∀ fm' skip',
     CreateQueue (CreateQueue p id fm skip).2 id fm' skip' =
       (false, (CreateQueue p id fm skip).2)) ∧
  (queues p !! id = None → id ∉ keys p →
     DeleteQueue (CreateQueue p id fm skip).2 id = p).
Proof.
  destruct (DeleteQueue_effect p id) as (Hgone & _ & _ & _).
  split_and!.
  - unfold CreateQueue. by rewrite Hgone.
  - intros fm' skip'. unfold CreateQueue.
    destruct (queues p !! id) as [q|] eqn:Hq; cbn.
    + by rewrite Hq.
    + by rewrite lookup_insert_eq.
  - intros Hq Hk. unfold CreateQueue. rewrite Hq. cbn.
    unfold DeleteQueue, Unsubscribe, erase_queue.
    erewrite attach_known by (cbn; apply lookup_insert_eq). cbn.
    apply processor_eq; cbn; try done.
    + set_solver.
    + rewrite insert_insert_eq, delete_insert_eq. by apply delete_id.
Qed.

(** *** Enqueue *)

(** X8. [Enqueue] returns with the processor unchanged, and without
    notifying the worker, when the key has no queue, when its queue drops
    for want of a consumer, and when its queue is full under SKIP_LAST. *)
Theorem Enqueue_silent_drop p id value :
  (queues p !! id = None → Enqueue p id value = EnqReturned p) ∧
  (∀ q, queues p !! id = Some q →
     (CPQ.skip_if_no_consumer q = true → CPQ.consumer q = None →
        Enqueue p id value = EnqReturned p) ∧
     (CPQ.listening q → CPQ.full_mode q = SKIP_LAST →
        CPQ.size q = CPQ.maxSize q → Enqueue p id value = EnqReturned p)).
Proof.
  unfold Enqueue, GetQueue. split.
  - by intros ->.
  - intros q ->. split.
    + intros Hs Hc. by rewrite Push_unattended.
    + intros Hl Hm Hf. by rewrite Push_full_skip.
Qed.



Theorem Enqueue_appends_and_notifies p id value q :
  queues p !! id = Some q → CPQ.listening q →
  CPQ.size q ≠ CPQ.maxSize q → CPQ.notifier q = true →
  ∃ p', Enqueue p id value = EnqReturned p' ∧
    queues p' !! id = Some (CPQ.set_cpq q (CPQ.cpq q ++ [value])) ∧
    data_ready p' = true ∧
    keys p' = keys p ∧ running p' = running p ∧
    (∀ id', id' ≠ id → queues p' !! id' = queues p !! id').
Proof.
  intros Hq Hl Hnf Hn. unfold Enqueue, GetQueue. rewrite Hq.
  rewrite Push_room by done. rewrite Hn. cbn. eexists. split; [done|].
  cbn. split_and!; try done.
  - apply lookup_insert_eq.
  - intros id' Hne. by apply lookup_insert_ne.
Qed.

End Facts.
End ProcessorExtras.

(** ** Further properties of the system *)

Module SystemExtras.
Import MQP QueueFacts ProcessorFacts.
Section Facts.
Context {ValueType : Type}.
Implicit Types (p : CMultiQueueProcessor ValueType) (s : System ValueType)
  (a : Action ValueType) (acts : list (Action ValueType)) (id key : Z)
  (q : CPQ.CPQueue ValueType).

(** *** Every queue of the processor stays as created and within capacity *)

Lemma bounded_insert p p' key q :
  queues_bounded p → queues p' = <[key := q]> (queues p) →
  CPQ.maxSize q = MAX_CAPACITY → CPQ.notifier q = true →
  CPQ.within_capacity q →
  queues_bounded p'.
Proof.
  intros Hb Hq Hm Hn Hc k q0. rewrite Hq.
  intros [[-> <-] | [_ Hold]]%lookup_insert_Some; [done|]. exact (Hb _ _ Hold).
Qed.

Lemma bounded_same p p' :
  queues_bounded p → queues p' = queues p → queues_bounded p'.
Proof. intros Hb Hq k q0. rewrite Hq. exact (Hb k q0). Qed.

Lemma stored_bounded q value q' n :
  CPQ.Push q value = CPQ.PushStored q' n →
  CPQ.within_capacity q →
  CPQ.maxSize q' = CPQ.maxSize q ∧ CPQ.notifier q' = CPQ.notifier q ∧
  CPQ.within_capacity q'.
Proof.
  intros HP Hc. destruct (Push_within q value q' n Hc HP) as [Hc' Hm].
  split_and!; [done | | done].
  by destruct (Push_stored_inv _ _ _ _ HP) as [[_ ->] | [_ (? & ? & _ & ->)]].
Qed.

Lemma resumed_bounded q value q' n :
  CPQ.Push_resume q value = CPQ.PushStored q' n →
  CPQ.maxSize q' = CPQ.maxSize q ∧ CPQ.notifier q' = CPQ.notifier q ∧
  CPQ.within_capacity q'.
Proof.
  intros HP. destruct (Push_resume_within q value q' n HP) as [Hc' Hm].
  split_and!; [done | | done].
  by destruct (Push_resume_stored_inv _ _ _ _ HP) as [_ ->].
Qed.

Lemma consumed_bounded q :
  CPQ.within_capacity q →
  CPQ.maxSize (CPQ.after (CPQ.Consume q)) = CPQ.maxSize q ∧
  CPQ.notifier (CPQ.after (CPQ.Consume q)) = CPQ.notifier q ∧
  CPQ.within_capacity (CPQ.after (CPQ.Consume q)).
Proof.
  intros Hc. destruct (Consume_within q Hc) as [Hc' Hm].
  split_and!; [done | | done].
  by destruct (Consume_cases q) as [[_ ->] | [[_ ->] | (? & ? & ? & _ & _ & ->)]].
Qed.

Lemma worker_step_bounded s :
  queues_bounded (proc s) → queues_bounded (proc (worker_step s)).
Proof.
  intros Hb. unfold worker_step.
  destruct (pc s) as [| | | [|key rest] | rest | rest | | |]; try done.
  - by destruct (running (proc s)).
  - by destruct (_ || _).
  - cbn. unfold GetQueue. cbn.
    destruct (queues (proc s) !! key) as [q|] eqn:Hq; cbn; [|done].
    destruct (Hb key q Hq) as (Hm & Hn & Hc).
    destruct (consumed_bounded q Hc) as (Hm' & Hn' & Hc').
    eapply bounded_insert; [exact Hb | done | congruence | congruence | done].
  - destruct (data_ready (proc s)); [done|].
    by destruct (all_queues_empty _ _) as [[|]|].
  - by destruct (_ || _).
Qed.

Lemma sys_step_bounded s a :
  queues_bounded (proc s) → queues_bounded (proc (sys_step s a)).
Proof.
  intros Hb. unfold sys_step. destruct (crashed (pc s)); [done|].
  destruct a as [id fm skip | id c | id | id | id | id v | id v | | | |]; cbn.
  - unfold CreateQueue. destruct (queues (proc s) !! id); cbn; [done|].
    eapply bounded_insert; [exact Hb | done | done | done |].
    unfold CPQ.within_capacity, CPQ.size. cbn. lia.
  - unfold attach, GetQueue.
    destruct (queues (proc s) !! id) as [q|] eqn:Hq; [|done].
    destruct (Hb id q Hq) as (Hm & Hn & Hc).
    by eapply bounded_insert.
  - by destruct (holds_keys_mtx (pc s)).
  - by destruct (holds_keys_mtx (pc s)).
  - intros k q. cbn. intros [_ Hq]%lookup_delete_Some. exact (Hb _ _ Hq).
  - unfold GetQueue. destruct (queues (proc s) !! id) as [q|] eqn:Hq; [|done].
    destruct (Hb id q Hq) as (Hm & Hn & Hc).
    destruct (CPQ.Push q v) as [| | q' n | |] eqn:HP; cbn; try done.
    destruct (stored_bounded _ _ _ _ HP Hc) as (Hm' & Hn' & Hc').
    eapply bounded_insert; [exact Hb | done | congruence | congruence | done].
  - unfold GetQueue. destruct (queues (proc s) !! id) as [q|] eqn:Hq; [|done].
    destruct (Hb id q Hq) as (Hm & Hn & Hc).
    destruct (CPQ.Push_resume q v) as [| | q' n | |] eqn:HP; cbn; try done.
    destruct (resumed_bounded _ _ _ _ HP) as (Hm' & Hn' & Hc').
    eapply bounded_insert; [exact Hb | done | congruence | congruence | done].
  - done.
  - done.
  - by destruct (running (proc s)).
  - by apply worker_step_bounded.
Qed.

Lemma sys_run_bounded acts : ∀ s,
  queues_bounded (proc s) → queues_bounded (proc (sys_run s acts)).
Proof.
  induction acts as [|a acts IH]; intros s Hb; [done|].
  cbn. by apply IH, sys_step_bounded.
Qed.

Lemma bounded_Push_defined q value :
  CPQ.maxSize q = MAX_CAPACITY → CPQ.Push q value ≠ CPQ.PushUndefined.
Proof.
  intros Hm. unfold CPQ.Push.
  destruct (_ && _); [done|]. cbn.
  destruct (N.eqb_spec (CPQ.size q) (CPQ.maxSize q)) as [Hf|]; [|done].
  destruct (CPQ.full_mode q); [done | | done].
  destruct (CPQ.cpq q) eqn:Hq; [|done].
  unfold CPQ.size in Hf. rewrite Hq, Hm in Hf. done.
Qed.

(** X10. On a new processor, as long as no queue is erased and
    [StartProcessing] is not called again, whatever else the host program
    and the worker do, every queue the processor holds has capacity 1000 and
    at most 1000 buffered values, and a call of [Enqueue] does not run into
    [cpq.pop()] on an empty buffer. (The steps take [GetQueue] and the call
    through the pointer it returns as one, which is what happens as long as
    the queue pointed to is not erased in between.) *)
Theorem processor_queues_stay_bounded acts :
  existsb erases acts = false → existsb restarts acts = false →
  (∀ key q, queues (proc (sys_run constructed acts)) !! key = Some q →
     CPQ.maxSize q = 1000%N ∧ length (CPQ.cpq q) ≤ 1000) ∧
  (∀ id value,
     Enqueue (proc (sys_run (constructed (ValueType:=ValueType)) acts)) id value
       ≠ EnqUndefined).
Proof.
  intros _ _.
  assert (queues_bounded (proc (sys_run (constructed (ValueType:=ValueType)) acts)))
    as Hb.
  { apply sys_run_bounded. intros k q. cbn. by rewrite lookup_empty. }
  split.
  - intros key q Hq. destruct (Hb key q Hq) as (Hm & _ & Hc).
    split; [done|]. unfold CPQ.within_capacity, CPQ.size in Hc.
    rewrite Hm in Hc. unfold MAX_CAPACITY in Hc. lia.
  - intros id value. unfold Enqueue, GetQueue.
    destruct (queues _ !! id) as [q|] eqn:Hq; [|done].
    destruct (Hb id q Hq) as (Hm & _ & _).
    pose proof (bounded_Push_defined q value Hm) as Hd.
    destruct (CPQ.Push q value) as [| | q' [|] | |]; done.
Qed.

(** *** The assertion of the worker under a discipline on keys *)

Lemma elem_of_sweep_order (ks : gset Z) key : key ∈ sweep_order ks ↔ key ∈ ks.
Proof. unfold sweep_order. rewrite merge_sort_Permutation. apply elem_of_elements. Qed.

Lemma pending_unheld c : holds_keys_mtx c = false → pending c = [].
Proof. by destruct c. Qed.

Lemma scan_finds_queues (qs : gmap Z (CPQ.CPQueue ValueType)) ks :
  (∀ key, key ∈ ks → is_Some (qs !! key)) → all_queues_empty qs ks ≠ None.
Proof.
  induction ks as [|key ks IH]; intros Hq; cbn; [done|].
  destruct (Hq key) as [q ->]; [set_solver|].
  destruct (0 <? CPQ.size q)%N; [done|]. apply IH. intros k Hk. apply Hq. set_solver.
Qed.

Lemma wf_same_keys s p' c :
  keys_safe s → keys p' = keys (proc s) →
  (∀ key, is_Some (queues (proc s) !! key) → is_Some (queues p' !! key)) →
  (c = pc s ∨ c = PcTerminated) →
  keys_safe (mkSystem p' c (calls s)).
Proof.
  intros (Hq & Hp & Ha) Hk Hqs Hc. split_and!; cbn.
  - intros key. rewrite Hk. intros Hin. by apply Hqs, Hq.
  - rewrite Hk. destruct Hc as [-> | ->]; [done|]. cbn. set_solver.
  - by destruct Hc as [-> | ->].
Qed.

Lemma worker_step_wf s : keys_safe s → keys_safe (worker_step s).
Proof.
  intros Hwf. pose proof Hwf as (Hq & Hp & Ha). unfold worker_step.
  destruct (pc s) as [| | | [|key rest] | rest | rest | | |] eqn:Hpc; cbn in Hp.
  - destruct (running (proc s)); split_and!; cbn; try done; set_solver.
  - destruct (_ || _); [|done]. split_and!; cbn; try done; set_solver.
  - split_and!; cbn; try done. intros key. by rewrite elem_of_sweep_order.
  - split_and!; cbn; try done; set_solver.
  - unfold GetQueue. cbn.
    destruct (Hq key) as [q Hqk]; [apply Hp; set_solver|]. rewrite Hqk.
    split_and!; cbn; try done.
    + intros k Hk. cbn. apply lookup_insert_is_Some'. right. by apply Hq.
    + intros k Hk. apply Hp. set_solver.
  - destruct (data_ready (proc s)); [by split_and!|].
    pose proof (scan_finds_queues (queues (proc s)) (sweep_order (keys (proc s)))) as Hs.
    destruct (all_queues_empty _ _) as [[|]|]; [by split_and! | by split_and! |].
    exfalso. apply Hs; [|done]. intros k Hk. by apply Hq, elem_of_sweep_order.
  - destruct (_ || _); [by split_and! | done].
  - done.
  - done.
  - done.
Qed.

Lemma sys_step_wf s a : keys_safe s → respects_keys s a = true → keys_safe (sys_step s a).
Proof.
  intros Hwf Hr. pose proof Hwf as (Hq & Hp & Ha). unfold sys_step.
  destruct (crashed (pc s)) eqn:Hcr; [done|].
  destruct a as [id fm skip | id c | id | id | id | id v | id v | | | |].
  - apply wf_same_keys; [done | | | by left].
    + unfold CreateQueue. by destruct (queues (proc s) !! id).
    + intros k Hk. unfold CreateQueue.
      destruct (queues (proc s) !! id) eqn:Hid; cbn; [done|].
      apply lookup_insert_is_Some'. by right.
  - apply wf_same_keys; [done | | | by left].
    + unfold attach. by destruct (GetQueue (proc s) id).
    + intros k Hk. unfold attach, GetQueue.
      destruct (queues (proc s) !! id) eqn:Hid; cbn; [|done].
      apply lookup_insert_is_Some'. by right.
  - destruct (holds_keys_mtx (pc s)) eqn:Hh; [done|].
    cbn in Hr. apply bool_decide_eq_true in Hr.
    split_and!; cbn; [| rewrite pending_unheld by done; set_solver | done].
    intros k Hk. cbn in *.
    apply elem_of_union in Hk as [->%elem_of_singleton | Hk]; [done | by apply Hq].
  - destruct (holds_keys_mtx (pc s)) eqn:Hh; [done|].
    split_and!; cbn; [| rewrite pending_unheld by done; set_solver | done].
    intros k Hk. cbn in *. apply elem_of_difference in Hk as [Hk _]. by apply Hq.
  - cbn in Hr. apply bool_decide_eq_true in Hr.
    split_and!; cbn; [| done | done].
    intros k Hk. cbn in *. rewrite lookup_delete_ne by set_solver. by apply Hq.
  - unfold GetQueue. destruct (queues (proc s) !! id) as [q|] eqn:Hid; [|done].
    destruct (CPQ.Push q v) as [| | q' n | |]; cbn; try done.
    + apply wf_same_keys; [done | done | | by left].
      intros k Hk. cbn.
      apply lookup_insert_is_Some'. by right.
    + apply (wf_same_keys s (proc s) PcTerminated); [done | done | done | by right].
  - unfold GetQueue. destruct (queues (proc s) !! id) as [q|] eqn:Hid.
    + destruct (CPQ.Push_resume q v) as [| | q' n | |]; cbn; try done.
      * apply wf_same_keys; [done | done | | by left].
        intros k Hk. cbn.
        apply lookup_insert_is_Some'. by right.
      * apply (wf_same_keys s (proc s) PcTerminated); [done | done | done | by right].
    + apply (wf_same_keys s (proc s) PcTerminated); [done | done | done | by right].
  - by apply wf_same_keys; [| | | left].
  - by apply wf_same_keys; [| | | left].
  - destruct (running (proc s)); [done|].
    by apply wf_same_keys; [| | | right].
  - by apply worker_step_wf.
Qed.

Lemma sys_run_wf acts : ∀ s, keys_safe s → disciplined s acts = true → keys_safe (sys_run s acts).
Proof.
  induction acts as [|a acts IH]; intros s Hwf Hd; [done|].
  cbn in Hd. apply andb_true_iff in Hd as [Hr Hd].
  cbn. apply IH; [by apply sys_step_wf | done].
Qed.

(** X11. If the host program puts a key in [keys] only while the key has a
    queue, and erases a queue only while its key is not in [keys], then
    every subscribed key has a queue in every state reached and the worker's
    [assert(q)] never fails. *)
Theorem disciplined_keys_never_fail_assert acts :
  disciplined (constructed (ValueType:=ValueType)) acts = true →
  pc (sys_run constructed acts) ≠ PcAssert ∧
  keys_have_queues (proc (sys_run (constructed (ValueType:=ValueType)) acts)).
Proof.
  intros Hd.
  destruct (sys_run_wf acts constructed) as (Hq & _ & Ha); [|done|done].
  split_and!; cbn; [|set_solver|done]. intros k. cbn. set_solver.
Qed.

(** *** One sweep *)

Lemma sweep_only_holds s acts :
  sweep_only s acts = true → holds_keys_mtx (pc s) = true.
Proof. destruct acts; cbn; intros H; apply andb_true_iff in H; tauto. Qed.

Lemma sweep_step s a :
  holds_keys_mtx (pc s) = true → holds_keys_mtx (pc (sys_step s a)) = true →
  consumed_keys (calls (sys_step s a)) ++ pending (pc (sys_step s a)) =
    consumed_keys (calls s) ++ pending (pc s) ∧
  keys (proc (sys_step s a)) = keys (proc s).
Proof.
  intros Hh. unfold sys_step.
  assert (crashed (pc s) = false) as -> by (by destruct (pc s)).
  destruct a as [id fm skip | id c | id | id | id | id v | id v | | | |]; cbn.
  - intros _. split; [done|]. unfold CreateQueue.
    by destruct (queues (proc s) !! id).
  - intros _. split; [done|]. unfold attach.
    by destruct (GetQueue (proc s) id).
  - by rewrite Hh.
  - by rewrite Hh.
  - done.
  - destruct (GetQueue (proc s) id) as [q|]; [|done].
    by destruct (CPQ.Push q v).
  - destruct (GetQueue (proc s) id) as [q|]; [|done].
    by destruct (CPQ.Push_resume q v).
  - done.
  - done.
  - by destruct (running (proc s)).
  - unfold worker_step.
    destruct (pc s) as [| | | [|key rest] | rest | rest | | |] eqn:Hpc;
      try done.
    + destruct (GetQueue _ key) as [q|]; cbn; [|done].
      intros _. split; [|reflexivity].
      rewrite map_app, <- app_assoc. reflexivity.
    + destruct (data_ready (proc s)); [done|].
      by destruct (all_queues_empty _ _) as [[|]|].
    + destruct (_ || _); [done|]. by rewrite Hpc.
Qed.

Lemma sweep_run acts : ∀ s,
  sweep_only s acts = true →
  consumed_keys (calls (sys_run s acts)) ++ pending (pc (sys_run s acts)) =
    consumed_keys (calls s) ++ pending (pc s) ∧
  keys (proc (sys_run s acts)) = keys (proc s).
Proof.
  induction acts as [|a acts IH]; intros s Hs; [done|].
  cbn in Hs. apply andb_true_iff in Hs as [Hh Hs].
  destruct (sweep_step s a Hh (sweep_only_holds _ _ Hs)) as [Hc Hk].
  destruct (IH _ Hs) as [Hc' Hk'].
  change (sys_run s (a :: acts)) with (sys_run (sys_step s a) acts).
  split; congruence.
Qed.

Lemma sweep_order_sorted (ks : gset Z) : StronglySorted Z.le (sweep_order ks).
Proof. unfold sweep_order. apply StronglySorted_merge_sort; apply _. Qed.

(** X12. A sweep calls [Consume] on the subscribed keys in ascending order,
    once per key: while the worker is inside the sweep it began by taking
    [keys_mtx], the keys it has called [Consume] on since, followed by those
    it has still to visit, are the keys subscribed when it began, sorted and
    without repetition; and [keys] does not change meanwhile. *)
Theorem sweep_visits_each_key_once_in_order s acts :
  pc s = PcLockKeys → sweep_only (worker_step s) acts = true →
  consumed_keys (calls (sys_run (worker_step s) acts))
    ++ pending (pc (sys_run (worker_step s) acts)) =
    consumed_keys (calls s) ++ sweep_order (keys (proc s)) ∧
  keys (proc (sys_run (worker_step s) acts)) = keys (proc s) ∧
  StronglySorted Z.le (sweep_order (keys (proc s))) ∧
  NoDup (sweep_order (keys (proc s))) ∧
  (∀ key, key ∈ sweep_order (keys (proc s)) ↔ key ∈ keys (proc s)).
Proof.
  intros Hpc Hs. destruct (sweep_run acts _ Hs) as [Hc Hk].
  assert (worker_step s = set_pc s (PcVisit (sweep_order (keys (proc s)))))
    as Hw by (unfold worker_step; by rewrite Hpc).
  rewrite Hw in Hc, Hk |- *.
  split_and!;
    [exact Hc | exact Hk | apply sweep_order_sorted | apply sweep_order_NoDup |].
  intros key. apply elem_of_sweep_order.
Qed.

(** *** Where a delivery comes from *)

Lemma traced_to H s p' c' calls' :
  traced H s →
  (∀ key q', queues p' !! key = Some q' →
     queues (proc s) !! key = Some q' ∨ vouched H key q') →
  (∀ key, key ∈ keys p' → key ∈ keys (proc s) ∨ AKeysInsert key ∈ H) →
  (∀ key, key ∈ pending c' → key ∈ pending (pc s) ∨ key ∈ keys (proc s)) →
  (∀ call, call ∈ calls' → call ∈ calls s ∨ call_vouched H call) →
  traced H (mkSystem p' c' calls').
Proof.
  intros (Hq & Hk & Hc) Hq' Hk' Hp' Hc'. split_and!; cbn.
  - intros key q' [Hold | Hnew]%Hq'; [by apply Hq | done].
  - intros key [[Hold | Hnew]%Hk' | [Hold | Hold]%Hp']; auto.
  - intros call [Hold | Hnew]%Hc'; [by apply Hc | done].
Qed.

Lemma traced_more H a s : traced H s → traced (H ++ [a]) s.
Proof.
  assert (∀ b, b ∈ H → b ∈ H ++ [a]) as Hin by set_solver.
  assert (∀ key v, offered H key v → offered (H ++ [a]) key v) as Hoff.
  { intros key v [?|?]; [left | right]; auto. }
  intros (Hq & Hk & Hc). split_and!.
  - intros key q Hl. destruct (Hq key q Hl) as [Hv Ha].
    split; [intros v Hv'; by apply Hoff, Hv | intros c Hc'; by apply Hin, Ha].
  - intros key Hkey. by apply Hin, Hk.
  - intros call Hcall. destruct (Hc call Hcall) as [Hs Hcb].
    split; [by apply Hin|]. intros c v Hcv. destruct (Hcb c v Hcv).
    split; [by apply Hoff | by apply Hin].
Qed.

Lemma vouched_after_insert H key q q' :
  vouched H key q →
  (∀ v, v ∈ CPQ.cpq q' → v ∈ CPQ.cpq q ∨ offered H key v) →
  (∀ c, CPQ.consumer q' = Some c →
     CPQ.consumer q = Some c ∨ AAttach key (Some c) ∈ H) →
  vouched H key q'.
Proof.
  intros [Hv Hc] Hv' Hc'. split.
  - intros v [Hold | Hnew]%Hv'; [by apply Hv | done].
  - intros c [Hold | Hnew]%Hc'; [by apply Hc | done].
Qed.

Lemma traced_insert H s key q q' c' :
  traced H s → queues (proc s) !! key = Some q →
  (∀ v, v ∈ CPQ.cpq q' → v ∈ CPQ.cpq q ∨ offered H key v) →
  (∀ c, CPQ.consumer q' = Some c →
     CPQ.consumer q = Some c ∨ AAttach key (Some c) ∈ H) →
  (c' = pc s ∨ pending c' = []) →
  traced H (mkSystem (set_queues (proc s) (<[key := q']> (queues (proc s))))
              c' (calls s)).
Proof.
  intros Ht Hq Hv Hc Hpc. apply (traced_to H s); [done | | | | ]; cbn.
  - intros k q0 [[<- <-] | [_ Hold]]%lookup_insert_Some; [right | by left].
    eapply vouched_after_insert; [|done|done]. by apply Ht.
  - by left.
  - destruct Hpc as [-> | ->]; [by left | set_solver].
  - by left.
Qed.

Lemma traced_quiet H s p' c' :
  traced H s → queues p' = queues (proc s) → keys p' = keys (proc s) →
  (c' = pc s ∨ pending c' = []) →
  traced H (mkSystem p' c' (calls s)).
Proof.
  intros Ht Hq Hk Hpc. apply (traced_to H s); [done | | | | ].
  - intros key q'. rewrite Hq. by left.
  - intros key. rewrite Hk. by left.
  - destruct Hpc as [-> | ->]; [by left | set_solver].
  - by left.
Qed.

Lemma worker_step_traced H s : traced H s → traced H (worker_step s).
Proof.
  intros Ht. unfold worker_step.
  destruct (pc s) as [| | | [|key rest] | rest | rest | | |] eqn:Hpc.
  - destruct (running (proc s)); apply traced_quiet; auto.
  - destruct (_ || _); [|done]. apply traced_quiet; auto.
  - apply (traced_to H s); [done | by left | by left | | by left].
    intros key Hk. right. by apply elem_of_sweep_order.
  - apply traced_quiet; auto.
  - unfold GetQueue. cbn.
    destruct (queues (proc s) !! key) as [q|] eqn:Hq.
    + apply (traced_to H s); [done | | by left | | ]; cbn.
      * intros k q0 [[<- <-] | [_ Hold]]%lookup_insert_Some; [right | by left].
        eapply vouched_after_insert; [by apply Ht | |].
        -- intros v Hv. left. revert Hv.
           destruct (Consume_cases q)
             as [[_ ->] | [[_ ->] | (c & front & tl & _ & Hcq & ->)]]; cbn;
             [done | done |]. rewrite Hcq. set_solver.
        -- intros c Hc. left. revert Hc.
           by destruct (Consume_cases q)
             as [[_ ->] | [[_ ->] | (c0 & front & tl & _ & Hcq & ->)]].
      * intros k Hk. left. rewrite Hpc. cbn. set_solver.
      * intros call [Hold | ->%list_elem_of_singleton]%elem_of_app; [by left|].
        right. destruct Ht as (Hqs & Hks & _). split; cbn.
        -- apply Hks. right. rewrite Hpc. cbn. set_solver.
        -- destruct (Hqs key q Hq) as [Hv Hc]. intros c v.
           destruct (Consume_cases q)
             as [[_ ->] | [[_ ->] | (c0 & front & tl & Hcq & Hfq & ->)]]; cbn;
             [done | done |].
           intros [= <- <-]. split; [apply Hv; rewrite Hfq; set_solver | by apply Hc].
    + apply (traced_to H s); [done | by left | by left | | by left].
      cbn. set_solver.
  - destruct (data_ready (proc s)).
    + apply (traced_to H s); [done | by left | by left | | by left].
      intros k Hk. left. by rewrite Hpc.
    + destruct (all_queues_empty _ _) as [[|]|].
      * apply (traced_to H s); [done | by left | by left | | by left].
        intros k Hk. left. by rewrite Hpc.
      * apply (traced_to H s); [done | by left | by left | | by left].
        intros k Hk. left. by rewrite Hpc.
      * apply traced_quiet; auto.
  - destruct (_ || _); [|done].
    apply (traced_to H s); [done | by left | by left | | by left].
    intros k Hk. left. by rewrite Hpc.
  - done.
  - done.
  - done.
Qed.

Lemma sys_step_traced H s a : traced H s → a ∈ H → traced H (sys_step s a).
Proof.
  intros Ht Ha. unfold sys_step. destruct (crashed (pc s)); [done|].
  destruct a as [id fm skip | id c | id | id | id | id v | id v | | | |].
  - unfold CreateQueue. destruct (queues (proc s) !! id) eqn:Hq; cbn;
      [by apply traced_quiet; auto|].
    apply (traced_to H s); [done | | by left | by left | by left]. cbn.
    intros k q0 [[<- <-] | [_ Hold]]%lookup_insert_Some; [right | by left].
    split; cbn; [set_solver | done].
  - unfold attach, GetQueue.
    destruct (queues (proc s) !! id) as [q|] eqn:Hq; [|by destruct s].
    apply traced_insert with q; [done | done | by left | | by left].
    cbn. intros c0 ->. by right.
  - destruct (holds_keys_mtx (pc s)); [done|].
    apply (traced_to H s); [done | by left | | by left | by left]. cbn.
    intros k [->%elem_of_singleton | Hk]%elem_of_union; [by right | by left].
  - destruct (holds_keys_mtx (pc s)); [done|].
    apply (traced_to H s); [done | by left | | by left | by left]. cbn.
    intros k [Hk _]%elem_of_difference. by left.
  - apply (traced_to H s); [done | | by left | by left | by left]. cbn.
    intros k q0 [_ Hold]%lookup_delete_Some. by left.
  - unfold GetQueue. destruct (queues (proc s) !! id) as [q|] eqn:Hq; [|done].
    destruct (CPQ.Push q v) as [| | q' n | |] eqn:HP; cbn; try done;
      [|apply traced_quiet; auto].
    apply traced_insert with q; [done | done | | | by left].
    + intros v0.
      destruct (Push_stored_inv _ _ _ _ HP)
        as [[_ ->] | [_ (front & tl & Hcq & ->)]]; cbn; rewrite ?Hcq;
        (intros [Hin | ->%list_elem_of_singleton]%elem_of_app;
          [left; set_solver | right; by left]).
    + intros c0.
      destruct (Push_stored_inv _ _ _ _ HP)
        as [[_ ->] | [_ (front & tl & Hcq & ->)]]; cbn; by left.
  - unfold GetQueue. destruct (queues (proc s) !! id) as [q|] eqn:Hq;
      [|apply traced_quiet; auto].
    destruct (CPQ.Push_resume q v) as [| | q' n | |] eqn:HP; cbn; try done;
      [|apply traced_quiet; auto].
    destruct (Push_resume_stored_inv _ _ _ _ HP) as [_ ->].
    apply traced_insert with q; [done | done | | | by left]; cbn.
    + intros v0 [Hin | ->%list_elem_of_singleton]%elem_of_app;
        [by left | right; by right].
    + intros c0. by left.
  - apply traced_quiet; auto.
  - apply traced_quiet; auto.
  - destruct (running (proc s)); [done|]. apply traced_quiet; auto.
  - by apply worker_step_traced.
Qed.

Lemma sys_run_traced acts : ∀ H s,
  traced H s → traced (H ++ acts) (sys_run s acts).
Proof.
  induction acts as [|a acts IH]; intros H s Ht.
  - by rewrite app_nil_r.
  - change (sys_run s (a :: acts)) with (sys_run (sys_step s a) acts).
    replace (H ++ a :: acts) with ((H ++ [a]) ++ acts)
      by (by rewrite <- app_assoc).
    apply IH. apply sys_step_traced; [by apply traced_more | set_solver].
Qed.

(** X13. On a new processor, as long as no queue is erased and
    [StartProcessing] is not called again, every value the worker hands to a
    consumer was offered to the key the call is made for, by an [Enqueue] on
    that key before; the consumer was attached to that key, and the key was
    subscribed. (With no queue erased, every raw pointer a thread holds
    still points to the queue of the key it was fetched for.) *)
Theorem deliveries_come_from_their_key acts call c v :
  existsb erases acts = false → existsb restarts acts = false →
  call ∈ calls (sys_run constructed acts) →
  call_callback call = Some (c, v) →
  offered acts (call_key call) v ∧
  AAttach (call_key call) (Some c) ∈ acts ∧
  AKeysInsert (call_key call) ∈ acts.
Proof.
  intros _ _ Hcall Hcb.
  assert (traced [] (constructed (ValueType:=ValueType))) as H0.
  { split_and!; cbn; [intros ?? Hl; by rewrite lookup_empty in Hl | set_solver | set_solver]. }
  destruct (sys_run_traced acts [] _ H0) as (_ & _ & Hc).
  destruct (Hc call Hcall) as [Hs Hd]. destruct (Hd c v Hcb).
  by split_and!.
Qed.

End Facts.
End SystemExtras.

(** ** Properties of the test program *)

Module HarnessFacts.
Import Harness.
#[local] Open Scope Z_scope.

(** *** CConsumer::Consume *)

Lemma occurrences_nil v : occurrences v [] = 0.
Proof. reflexivity. Qed.

Lemma occurrences_cons v x values :
  occurrences v (x :: values) =
    (if decide (x = v) then 1 else 0) + occurrences v values.
Proof.
  unfold occurrences. rewrite filter_cons.
  destruct (decide (x = v)); cbn [length]; lia.
Qed.

Lemma occurrences_nonneg v values : 0 ≤ occurrences v values.
Proof. unfold occurrences. lia. Qed.

Lemma occurrences_le v values : occurrences v values ≤ Z.of_nat (length values).
Proof.
  induction values as [|x values IH]; [done|].
  rewrite occurrences_cons. cbn [length]. destruct (decide (x = v)); lia.
Qed.

Lemma consume_all_tally values : ∀ total_map : gmap Z Z,
  Z.of_nat (length values) ≤ INT_MAX →
  (∀ v n, total_map !! v = Some n →
     1 ≤ n ∧ n + Z.of_nat (length values) ≤ INT_MAX) →
  ∃ m, consume_all total_map values = Some m ∧
    ∀ v, m !! v = tally (total_map !! v) (occurrences v values).
Proof.
  induction values as [|x values IH]; intros total_map Hlen Hm.
  - exists total_map. split; [done|]. intros v. rewrite occurrences_nil.
    unfold tally. destruct (total_map !! v) as [k|]; [f_equal; lia | done].
  - cbn [length] in Hlen, Hm. cbn [consume_all]. unfold CConsumer_Consume.
    destruct (total_map !! x) as [n|] eqn:Hx.
    + destruct (Hm x n Hx) as [Hn1 Hn2].
      destruct (Z.ltb_spec n INT_MAX) as [_|]; [|lia]. cbn.
      destruct (IH (<[x := n + 1]> (delete x total_map))) as (m & Hrun & Hlook).
      { lia. }
      { intros v k. rewrite insert_delete_eq.
        intros [[<- <-] | [_ Hold]]%lookup_insert_Some; [lia|].
        destruct (Hm v k Hold). lia. }
      exists m. split; [done|]. intros v. rewrite Hlook, occurrences_cons.
      rewrite insert_delete_eq.
      destruct (decide (x = v)) as [<- | Hne].
      * rewrite lookup_insert_eq, Hx. cbn. f_equal. lia.
      * by rewrite lookup_insert_ne.
    + cbn.
      destruct (IH (<[x := 1]> total_map)) as (m & Hrun & Hlook).
      { lia. }
      { intros v k.
        intros [[<- <-] | [_ Hold]]%lookup_insert_Some; [lia|].
        destruct (Hm v k Hold). lia. }
      exists m. split; [done|]. intros v. rewrite Hlook, occurrences_cons.
      destruct (decide (x = v)) as [<- | Hne].
      * rewrite lookup_insert_eq, Hx. cbn.
        pose proof (occurrences_nonneg x values).
        destruct (decide (1 + occurrences x values = 0)); [lia|done].
      * by rewrite lookup_insert_ne.
Qed.

(** X14. Fed at most [INT_MAX] values, the test consumer's [total_map] maps
    each value it received to the number of times it received it, and holds
    no other value. *)
Theorem CConsumer_counts_each_value values :
  Z.of_nat (length values) ≤ INT_MAX →
  ∃ m, consume_all ∅ values = Some m ∧
    ∀ v, m !! v =
      if decide (occurrences v values = 0) then None
      else Some (occurrences v values).
Proof.
  intros Hlen. destruct (consume_all_tally values ∅ Hlen) as (m & Hrun & Hlook).
  { intros v n. by rewrite lookup_empty. }
  exists m. split; [done|]. intros v. by rewrite Hlook, lookup_empty.
Qed.

(** *** Produce *)

Lemma asked_cons k v c calls :
  asked k v (c :: calls) = (if decide (c = (k, v)) then 1 else 0) + asked k v calls.
Proof.
  unfold asked. rewrite filter_cons.
  destruct (decide (c = (k, v))); cbn [length]; lia.
Qed.

Lemma asked_app k v l1 l2 : asked k v (l1 ++ l2) = asked k v l1 + asked k v l2.
Proof. unfold asked. rewrite filter_app, length_app. lia. Qed.

Lemma demand_cons g gs k v :
  demand (g :: gs) k v =
    (if decide ((key g, value g) = (k, v)) then repetition g else 0)
    + demand gs k v.
Proof.
  unfold demand. cbn [foldr].
  destruct (decide ((key g, value g) = (k, v))) as [[= <- <-] | Hne].
  - by rewrite bool_decide_eq_true_2.
  - rewrite bool_decide_eq_false_2; [done|]. intros [<- <-]. done.
Qed.

Lemma total_repetition_cons g gs :
  total_repetition (g :: gs) = repetition g + total_repetition gs.
Proof. reflexivity. Qed.

Lemma demand_bounds gs k v :
  nonneg gs → 0 ≤ demand gs k v ≤ total_repetition gs.
Proof.
  induction 1 as [|g gs Hg _ IH]; [done|].
  rewrite demand_cons, total_repetition_cons. destruct (decide _); lia.
Qed.

(** One pass in which every call returns. *)
Lemma pass_returning gs : ∀ made total,
  nonneg gs →
  ∃ out gs', pass always made gs total
             = (out, Some (gs', total - Z.of_nat (length out))) ∧
    nonneg gs' ∧
    total_repetition gs' = total_repetition gs - Z.of_nat (length out) ∧
    (0 < total_repetition gs → 0 < Z.of_nat (length out)) ∧
    ∀ k v, demand gs' k v = demand gs k v - asked k v out.
Proof.
  induction gs as [|g gs IH]; intros made total Hnn.
  - exists [], []. split_and!;
      [cbn; do 3 f_equal; lia | constructor | done | cbn; lia | done].
  - apply Forall_cons in Hnn as [Hg Hnn]. cbn [pass].
    destruct (Z.ltb_spec 0 (repetition g)) as [Hpos | Hzero].
    + cbn [always].
      destruct (IH (S made) (total - 1) Hnn)
        as (out & gs' & -> & Hnn' & Htot & _ & Hdem).
      exists ((key g, value g) :: out), (spend g :: gs').
      cbn [length fmap option_fmap option_map]. split_and!.
      * do 3 f_equal. lia.
      * apply Forall_cons. split; [cbn; lia | done].
      * rewrite !total_repetition_cons, Htot. cbn [repetition spend]. lia.
      * lia.
      * intros k v. rewrite !demand_cons, asked_cons, Hdem.
        cbn [key value repetition spend].
        destruct (decide _); lia.
    + destruct (IH made total Hnn)
        as (out & gs' & -> & Hnn' & Htot & Hprog & Hdem).
      exists out, (g :: gs'). cbn [fmap option_fmap option_map]. split_and!.
      * done.
      * by apply Forall_cons.
      * rewrite !total_repetition_cons, Htot. lia.
      * rewrite total_repetition_cons. intros Hp. apply Hprog. lia.
      * intros k v. rewrite !demand_cons, Hdem. lia.
Qed.

Lemma rounds_returning fuel : ∀ made gs,
  nonneg gs → (Z.to_nat (total_repetition gs) ≤ fuel)%nat →
  ∃ calls, rounds always fuel made gs (total_repetition gs)
           = Some (Returned calls) ∧
    Z.of_nat (length calls) = total_repetition gs ∧
    ∀ k v, asked k v calls = demand gs k v.
Proof.
  induction fuel as [|fuel IH]; intros made gs Hnn Hfuel.
  - assert (total_repetition gs = 0) as Hz.
    { pose proof (demand_bounds gs 0 0 Hnn). lia. }
    exists []. cbn. rewrite Hz. cbn. split_and!; [done | done |].
    intros k v. pose proof (demand_bounds gs k v Hnn). unfold asked. cbn. lia.
  - cbn [rounds]. destruct (Z.ltb_spec 0 (total_repetition gs)) as [Hpos | Hz].
    + destruct (pass_returning gs made (total_repetition gs) Hnn)
        as (out & gs' & -> & Hnn' & Htot & Hprog & Hdem).
      rewrite <- Htot.
      destruct (IH (made + length out)%nat gs' Hnn') as (calls & -> & Hlen & Hask).
      { specialize (Hprog Hpos). lia. }
      exists (out ++ calls). cbn. split_and!; [done | rewrite length_app; lia |].
      intros k v. rewrite asked_app, Hask, Hdem. lia.
    + exists []. split_and!; [done | |].
      * pose proof (demand_bounds gs 0 0 Hnn). cbn. lia.
      * intros k v. pose proof (demand_bounds gs k v Hnn). unfold asked. cbn. lia.
Qed.

(** *** When a call does not return *)

Lemma pass_always_goes_on gs : ∀ made total,
  ∃ out gs' t', pass always made gs total = (out, Some (gs', t')).
Proof.
  induction gs as [|g gs IH]; intros made total; cbn [pass].
  - by eexists _, _, _.
  - destruct (0 <? repetition g); cbn [always].
    + destruct (IH (S made) (total - 1)) as (out & gs' & t' & ->).
      by eexists _, _, _.
    + destruct (IH made total) as (out & gs' & t' & ->). by eexists _, _, _.
Qed.

Lemma pass_oracle (returns : nat → bool) (k : nat) gs : ∀ made total out r,
  (∀ j, (j < k)%nat → returns j = true) → (made ≤ k)%nat →
  pass always made gs total = (out, r) →
  ((made + length out ≤ k)%nat → pass returns made gs total = (out, r)) ∧
  ((k < made + length out)%nat → returns k = false →
     pass returns made gs total = (take (S (k - made)) out, None)).
Proof.
  induction gs as [|g gs IH]; intros made total out r Hbefore Hmade;
    cbn [pass].
  - intros [= <- <-]. cbn. split; [done | lia].
  - destruct (0 <? repetition g); cbn [always].
    + destruct (pass always (S made) gs (total - 1)) as [out' r'] eqn:Hp.
      intros [= <- <-]. cbn [length].
      destruct (decide (made = k)) as [-> | Hne].
      * split; [lia|]. intros _ ->. by rewrite Nat.sub_diag.
      * rewrite Hbefore by lia.
        destruct (IH (S made) (total - 1) out' r' Hbefore ltac:(lia) Hp)
          as [Hall Hstop].
        split.
        -- intros Hk. rewrite Hall by lia. done.
        -- intros Hk Hf. rewrite Hstop by (done || lia).
           replace (k - made)%nat with (S (k - S made)) by lia. done.
    + destruct (pass always made gs total) as [out' r'] eqn:Hp.
      intros [= <- <-].
      destruct (IH made total out' r' Hbefore Hmade Hp) as [Hall Hstop].
      split.
      * intros Hk. by rewrite Hall.
      * intros Hk Hf. by rewrite Hstop.
Qed.

Lemma rounds_oracle (returns : nat → bool) (k : nat) fuel :
  ∀ made gs total calls,
  (∀ j, (j < k)%nat → returns j = true) → (made ≤ k)%nat →
  rounds always fuel made gs total = Some (Returned calls) →
  ((made + length calls ≤ k)%nat →
     rounds returns fuel made gs total = Some (Returned calls)) ∧
  ((k < made + length calls)%nat → returns k = false →
     rounds returns fuel made gs total
       = Some (Suspended (take (S (k - made)) calls))).
Proof.
  induction fuel as [|fuel IH]; intros made gs total calls Hbefore Hmade;
    cbn [rounds]; destruct (0 <? total) eqn:Ht.
  - done.
  - intros [= <-]. cbn. split; [done | lia].
  - destruct (pass_always_goes_on gs made total) as (out & gs' & t' & Hp).
    rewrite Hp.
    destruct (rounds always fuel (made + length out) gs' t')
      as [[rest | rest]|] eqn:Hr; cbn; try done.
    intros [= <-]. rewrite length_app.
    destruct (pass_oracle returns k gs made total _ _ Hbefore Hmade Hp)
      as [Hall Hstop].
    destruct (decide (made + length out ≤ k)%nat) as [Hle | Hgt].
    + rewrite Hall by done.
      destruct (IH _ _ _ _ Hbefore Hle Hr) as [Hall' Hstop'].
      split.
      * intros Hk. rewrite Hall' by lia. done.
      * intros Hk Hf. rewrite Hstop' by (done || lia). cbn.
        rewrite take_app_ge by lia.
        by replace (S (k - made) - length out)%nat
          with (S (k - (made + length out))) by lia.
    + split; [lia|]. intros Hk Hf. rewrite Hstop by (done || lia).
      rewrite take_app_le by lia. done.
  - intros [= <-]. cbn. split; [done | lia].
Qed.

(** X15. With repetitions that are not negative and sum to at most
    [INT_MAX], [Produce] makes its calls of [Enqueue] in one fixed order, as
    many as the repetitions sum to, [Enqueue(k, v)] as often as the
    generators with key [k] and value [v] ask for. If all these calls return,
    [Produce] returns after the last; if one of them does not return,
    [Produce] stays in it, having made the calls before it and no other. *)
Theorem Produce_enqueues_what_is_asked generators :
  Forall (λ g, 0 ≤ repetition g) generators →
  total_repetition generators ≤ INT_MAX →
  ∃ calls,
    Z.of_nat (length calls) = total_repetition generators ∧
    (∀ k v, Z.of_nat (length (filter (λ c, c = (k, v)) calls))
            = demand generators k v) ∧
    ∀ returns : nat → bool,
      ((∀ j, (j < length calls)%nat → returns j = true) →
         Produce returns generators = Some (Returned calls)) ∧
      (∀ n, (n < length calls)%nat → returns n = false →
         (∀ j, (j < n)%nat → returns j = true) →
         Produce returns generators = Some (Suspended (take (S n) calls))).
Proof.
  intros Hnn _. unfold Produce.
  destruct (rounds_returning (Z.to_nat (total_repetition generators)) 0%nat
              generators Hnn ltac:(done)) as (calls & Hrun & Hlen & Hask).
  exists calls. split_and!; [done | done |]. intros returns. split.
  - intros Hall.
    by apply (rounds_oracle returns (length calls) _ 0%nat _ _ calls Hall
                ltac:(lia) Hrun).
  - intros n Hn Hf Hbefore.
    destruct (rounds_oracle returns n _ 0%nat _ _ calls Hbefore ltac:(lia) Hrun)
      as [_ Hstop].
    rewrite Hstop by (done || lia). by rewrite Nat.sub_0_r.
Qed.

Lemma CConsumer_counts_each_value_witness :
  Z.of_nat (length [5; 10; 5]) ≤ INT_MAX ∧
  ∃ m, consume_all ∅ [5; 10; 5] = Some m ∧
    ∀ v, m !! v =
      if decide (occurrences v [5; 10; 5] = 0) then None
      else Some (occurrences v [5; 10; 5]).
Proof.
  assert (Z.of_nat (length [5; 10; 5]) ≤ INT_MAX) as H by (vm_compute; discriminate).
  split; [exact H|]. exact (CConsumer_counts_each_value [5; 10; 5] H).
Defined.

End HarnessFacts.

(** ** Further properties of the worker *)

Module WorkerExtras.
Import MQP QueueFacts ProcessorFacts SystemExtras.
Section Facts.
Context {ValueType : Type}.
Implicit Types (p : CMultiQueueProcessor ValueType) (s : System ValueType)
  (a : Action ValueType) (acts : list (Action ValueType)) (id key : Z)
  (q : CPQ.CPQueue ValueType).

(** *** Without a subscription *)

Lemma sweep_order_empty : sweep_order ∅ = [].
Proof. unfold sweep_order. by rewrite elements_empty. Qed.

Lemma unsubscribed_step s a :
  keys (proc s) = ∅ → pending (pc s) = [] → pc s ≠ PcAssert →
  subscribes a = false →
  keys (proc (sys_step s a)) = ∅ ∧ pending (pc (sys_step s a)) = [] ∧
  pc (sys_step s a) ≠ PcAssert ∧ calls (sys_step s a) = calls s.
Proof.
  intros Hk Hp Ha Hs. unfold sys_step.
  destruct (crashed (pc s)) eqn:Hcr; [done|].
  destruct a as [id fm skip | id c | id | id | id | id v | id v | | | |];
    cbn; try done.
  - split_and!; try done. unfold CreateQueue.
    by destruct (queues (proc s) !! id).
  - split_and!; try done. unfold attach.
    by destruct (GetQueue (proc s) id).
  - destruct (holds_keys_mtx (pc s)); [done|]. split_and!; try done.
    cbn. rewrite Hk. set_solver.
  - destruct (GetQueue (proc s) id) as [q|]; [|done].
    by destruct (CPQ.Push q v).
  - destruct (GetQueue (proc s) id) as [q|]; [|done].
    by destruct (CPQ.Push_resume q v).
  - by destruct (running (proc s)).
  - unfold worker_step.
    destruct (pc s) as [| | | [|key rest] | rest | rest | | |] eqn:Hpc;
      cbn in Hp; try done.
    + by destruct (running (proc s)).
    + destruct (_ || _); [done|]. by rewrite Hpc.
    + cbn. rewrite Hk, sweep_order_empty. by split_and!.
    + subst rest. destruct (data_ready (proc s)); [done|].
      rewrite Hk, sweep_order_empty. by cbn.
    + destruct (_ || _); [done|]. by rewrite Hpc.
    + by rewrite Hpc.
Qed.

Lemma unsubscribed_run acts : ∀ s,
  keys (proc s) = ∅ → pending (pc s) = [] → pc s ≠ PcAssert →
  existsb subscribes acts = false →
  keys (proc (sys_run s acts)) = ∅ ∧ pc (sys_run s acts) ≠ PcAssert ∧
  calls (sys_run s acts) = calls s.
Proof.
  induction acts as [|a acts IH]; intros s Hk Hp Ha Hno; [done|].
  cbn in Hno. apply orb_false_iff in Hno as [Hs Hno].
  destruct (unsubscribed_step s a Hk Hp Ha Hs) as (Hk' & Hp' & Ha' & Hc').
  change (sys_run s (a :: acts)) with (sys_run (sys_step s a) acts).
  destruct (IH _ Hk' Hp' Ha' Hno) as (? & ? & Hc). split_and!; congruence.
Qed.

(** X16. As long as no [Subscribe] has put a key in [keys], the worker calls
    [Consume] on no queue, whatever is created, attached or enqueued, and
    its assertion does not fail. *)
Theorem no_subscription_no_Consume acts :
  existsb subscribes acts = false →
  calls (sys_run (constructed (ValueType:=ValueType)) acts) = [] ∧
  keys (proc (sys_run (constructed (ValueType:=ValueType)) acts)) = ∅ ∧
  pc (sys_run (constructed (ValueType:=ValueType)) acts) ≠ PcAssert.
Proof.
  intros Hno.
  destruct (unsubscribed_run acts constructed) as (Hk & Ha & Hc); try done.
Qed.

(** *** What a step of the worker leaves alone *)

Lemma worker_step_cases s :
  (keys (proc (worker_step s)) = keys (proc s) ∧
   running (proc (worker_step s)) = running (proc s) ∧
   queues (proc (worker_step s)) = queues (proc s)) ∨
  (∃ key rest q, pc s = PcVisit (key :: rest) ∧
     queues (proc s) !! key = Some q ∧
     keys (proc (worker_step s)) = keys (proc s) ∧
     running (proc (worker_step s)) = running (proc s) ∧
     queues (proc (worker_step s)) =
       <[key := CPQ.after (CPQ.Consume q)]> (queues (proc s))).
Proof.
  unfold worker_step.
  destruct (pc s) as [| | | [|key rest] | rest | rest | | |] eqn:Hpc;
    try by left.
  - left. by destruct (running (proc s)) eqn:Hr.
  - left. by destruct (_ || _).
  - unfold GetQueue. cbn.
    destruct (queues (proc s) !! key) as [q0|] eqn:Hq0; cbn; [|by left].
    right. by exists key, rest, q0.
  - left. by destruct (data_ready (proc s));
      [| destruct (all_queues_empty _ _) as [[|]|]].
  - left. by destruct (_ || _).
Qed.

(** X17. A step of the worker changes neither [keys] nor [running], creates
    and erases no queue, and leaves every queue as it was or with its head
    element removed; queues of keys that are not left in the sweep are not
    touched. *)
Theorem worker_only_pops s :
  keys (proc (worker_step s)) = keys (proc s) ∧
  running (proc (worker_step s)) = running (proc s) ∧
  (∀ key, queues (proc (worker_step s)) !! key = None ↔
          queues (proc s) !! key = None) ∧
  (∀ key q q', queues (proc s) !! key = Some q →
     queues (proc (worker_step s)) !! key = Some q' → popped q q') ∧
  (∀ key, key ∉ pending (pc s) →
     queues (proc (worker_step s)) !! key = queues (proc s) !! key).
Proof.
  destruct (worker_step_cases s)
    as [(Hk & Hr & Hq) | (key & rest & q0 & Hpc & Hq0 & Hk & Hr & Hq)];
    rewrite Hq.
  - split_and!; try done. intros key q q' -> [= <-]. by left.
  - split_and!; [done | done | | |].
    + intros k. destruct (decide (k = key)) as [-> | Hne].
      * by rewrite lookup_insert_eq, Hq0.
      * by rewrite lookup_insert_ne.
    + intros k q q' Hqk. destruct (decide (k = key)) as [-> | Hne].
      * rewrite lookup_insert_eq. intros [= <-].
        assert (q = q0) as -> by congruence.
        destruct (Consume_cases q0)
          as [[_ ->] | [[_ ->] | (c & front & tl & _ & Hcq & ->)]]; cbn;
          [by left | by left |].
        right. exists front. by split.
      * rewrite lookup_insert_ne by done. rewrite Hqk. intros [= <-]. by left.
    + intros k Hnk. rewrite lookup_insert_ne; [done|].
      rewrite Hpc in Hnk. cbn in Hnk. set_solver.
Qed.

End Facts.

Lemma no_subscription_no_Consume_witness :
  let acts : list (Action nat) :=
    [ACreateQueue 1 SKIP_LAST false; APush 1 5; ANotify;
     AWorker; AWorker; AWorker; AAttach 1 (Some 7); AWorker;
     AStopProcessing; AWorker; AWorker; AWorker; AWorker] in
  existsb subscribes acts = false ∧ calls (sys_run constructed acts) = [].
Proof.
  intros acts. split; [reflexivity|].
  exact (proj1 (no_subscription_no_Consume acts eq_refl)).
Defined.

End WorkerExtras.

(** ** The further properties at concrete states *)

Module Scenarios.
Import MQP Harness ProcessorExtras SystemExtras HarnessFacts.

Lemma Subscribe_attaches_latest_witness :
  let p := (CreateQueue (members_init (ValueType:=nat)) 1 DROP_FIRST false).2 in
  let q := CPQ.construct MAX_CAPACITY DROP_FIRST false true in
  queues p !! 1%Z = Some q ∧
  queues (Subscribe p 1 (Some 7)) !! 1%Z = Some (CPQ.SetConsumer q (Some 7)).
Proof.
  intros p q.
  assert (queues p !! 1%Z = Some q) as Hq by (vm_compute; reflexivity).
  split; [exact Hq|].
  exact (proj1 (Subscribe_attaches_latest p 1 (Some 7) q Hq)).
Defined.

Lemma Unsubscribe_undoes_Subscribe_witness :
  let p := (CreateQueue (members_init (ValueType:=nat)) 1 DROP_FIRST false).2 in
  (1%Z ∉ keys p) ∧ Unsubscribe (Subscribe p 1 (Some 7)) 1 = p.
Proof.
  intros p.
  assert (1%Z ∉ keys p) as Hk by (apply (bool_decide_unpack _); vm_compute; exact I).
  split; [exact Hk|].
  apply (Unsubscribe_undoes_Subscribe p 1 (Some 7) Hk).
  intros q Hq. vm_compute in Hq. injection Hq as <-. reflexivity.
Defined.

Lemma Enqueue_appends_and_notifies_witness :
  let p := (CreateQueue (members_init (ValueType:=nat)) 1 DROP_FIRST false).2 in
  let q := CPQ.construct MAX_CAPACITY DROP_FIRST false true in
  queues p !! 1%Z = Some q ∧ CPQ.listening q ∧
  CPQ.size q ≠ CPQ.maxSize q ∧ CPQ.notifier q = true ∧
  ∃ p', Enqueue p 1 5 = EnqReturned p' ∧
    queues p' !! 1%Z = Some (CPQ.set_cpq q [5]) ∧ data_ready p' = true.
Proof.
  intros p q.
  assert (queues p !! 1%Z = Some q) as Hq by (vm_compute; reflexivity).
  assert (CPQ.listening q) as Hl by (right; reflexivity).
  assert (CPQ.size q ≠ CPQ.maxSize q) as Hs by (vm_compute; discriminate).
  split; [exact Hq|]. split; [exact Hl|]. split; [exact Hs|].
  split; [reflexivity|].
  destruct (Enqueue_appends_and_notifies p 1 5 q Hq Hl Hs eq_refl)
    as (p' & He & Hq' & Hd & _).
  exists p'. split; [exact He|]. split; [exact Hq' | exact Hd].
Defined.

Lemma processor_queues_stay_bounded_witness :
  let acts : list (Action nat) :=
    [ACreateQueue 1 DROP_FIRST false; APush 1 5; ANotify; APush 1 6; ANotify]
    ++ do_Subscribe 1 (Some 7) ++ [AWorker; AWorker; AWorker; AWorker] in
  existsb erases acts = false ∧ existsb restarts acts = false ∧
  ∀ value, Enqueue (proc (sys_run constructed acts)) 1 value ≠ EnqUndefined.
Proof.
  intros acts. split; [reflexivity|]. split; [reflexivity|].
  intros value.
  exact (proj2 (processor_queues_stay_bounded acts eq_refl eq_refl) 1%Z value).
Defined.

Lemma disciplined_keys_never_fail_assert_witness :
  let acts : list (Action nat) :=
    [ACreateQueue 1 SKIP_LAST true] ++ do_Subscribe 1 (Some 7)
    ++ [APush 1 5; ANotify; AWorker; AWorker; AWorker; AWorker;
        AStopProcessing; AWorker; AWorker; AWorker; AWorker]
    ++ do_DeleteQueue 1 in
  disciplined constructed acts = true ∧
  pc (sys_run constructed acts) ≠ PcAssert.
Proof.
  intros acts.
  assert (disciplined constructed acts = true) as Hd by (vm_compute; reflexivity).
  split; [exact Hd|].
  exact (proj1 (disciplined_keys_never_fail_assert acts Hd)).
Defined.

Lemma sweep_visits_each_key_once_in_order_witness :
  let before : list (Action nat) :=
    [ACreateQueue 2 SKIP_LAST true; ACreateQueue 1 SKIP_LAST true]
    ++ do_Subscribe 2 (Some 20) ++ do_Subscribe 1 (Some 10)
    ++ [APush 1 5; ANotify; APush 2 6; ANotify; AWorker; AWorker] in
  let s := sys_run constructed before in
  let acts := [AWorker; APush 2 8; AKeysInsert 3; AWorker; AWorker] in
  pc s = PcLockKeys ∧ sweep_only (worker_step s) acts = true ∧
  consumed_keys (calls (sys_run (worker_step s) acts))
    ++ pending (pc (sys_run (worker_step s) acts)) =
    consumed_keys (calls s) ++ sweep_order (keys (proc s)).
Proof.
  intros before s acts.
  assert (pc s = PcLockKeys) as Hpc by (vm_compute; reflexivity).
  assert (sweep_only (worker_step s) acts = true) as Hs by (vm_compute; reflexivity).
  split; [exact Hpc|]. split; [exact Hs|].
  exact (proj1 (sweep_visits_each_key_once_in_order s acts Hpc Hs)).
Defined.

Lemma deliveries_come_from_their_key_witness :
  let acts : list (Action nat) :=
    [ACreateQueue 1 SKIP_LAST true; ACreateQueue 2 SKIP_LAST true]
    ++ do_Subscribe 1 (Some 10) ++ do_Subscribe 2 (Some 20)
    ++ [APush 1 5; ANotify; APush 2 6; ANotify;
        AWorker; AWorker; AWorker; AWorker; AWorker; AWorker] in
  let call := mkCall 2 true (Some (20, 6)) in
  existsb erases acts = false ∧ existsb restarts acts = false ∧
  call ∈ calls (sys_run constructed acts) ∧
  call_callback call = Some (20, 6) ∧
  offered acts 2 6 ∧ AAttach 2 (Some 20) ∈ acts ∧ AKeysInsert 2 ∈ acts.
Proof.
  intros acts call.
  assert (call ∈ calls (sys_run constructed acts)) as Hin.
  { assert (calls (sys_run constructed acts)
            = [mkCall 1 true (Some (10, 5)); call]) as ->
      by (vm_compute; reflexivity).
    apply elem_of_cons. right. apply elem_of_cons. left. reflexivity. }
  split; [reflexivity|]. split; [reflexivity|].
  split; [exact Hin|]. split; [reflexivity|].
  exact (deliveries_come_from_their_key acts call 20 6 eq_refl eq_refl Hin eq_refl).
Defined.

Lemma Produce_enqueues_what_is_asked_witness :
  let generators := [mkGenerator 1 5 2 1; mkGenerator 2 10 3 0] in
  Forall (λ g, (0 ≤ repetition g)%Z) generators ∧
  (total_repetition generators ≤ INT_MAX)%Z ∧
  ∃ calls, Z.of_nat (length calls) = total_repetition generators ∧
    Produce always generators = Some (Returned calls).
Proof.
  intros generators.
  assert (Forall (λ g, (0 ≤ repetition g)%Z) generators) as Hnn.
  { apply (bool_decide_unpack _). vm_compute. exact I. }
  assert (total_repetition generators ≤ INT_MAX)%Z as Hmax
    by (vm_compute; discriminate).
  split; [exact Hnn|]. split; [exact Hmax|].
  destruct (Produce_enqueues_what_is_asked generators Hnn Hmax)
    as (calls & Hlen & _ & Hret).
  exists calls. split; [exact Hlen|].
  apply (proj1 (Hret always)). intros j _. reflexivity.
Defined.

End Scenarios.
